(** * Gray-Scott reaction-diffusion engine: index arithmetic, domain
    decomposition, stepper, checkpoint bridge and the step-oriented reader.

    Shallow embedding of [source/gpu/gray-scott-kokkos/gray-scott.h] and of
    the write/read drivers in [source/gpu/basics-kokkos/write-read-kokkos.cpp]
    and its HIP sibling.

    Integer model (LP64): [size_t] is a 64-bit unsigned integer, [int] a
    32-bit two's complement integer.  Both are carried as [Z]; every C++
    operation is followed by the reduction the language performs. *)

From Stdlib Require Import ZArith Lia Floats.
From stdpp Require Import base list gmap strings.

Local Open Scope Z_scope.

(** ** Machine integers *)

Module CInt.

Definition size_t_mod : Z := 2 ^ 64.
Definition int_mod : Z := 2 ^ 32.
Definition int_half : Z := 2 ^ 31.

(** Conversion of any integer value to [size_t]. *)
Definition to_size_t (v : Z) : Z := v mod size_t_mod.

(** Conversion of any integer value to [int]: modular, two's complement
    (what C++20 prescribes and earlier compilers implement). *)
Definition to_int (v : Z) : Z := (v + int_half) mod int_mod - int_half.

Definition is_size_t (v : Z) : Prop := 0 <= v < size_t_mod.
Definition is_int (v : Z) : Prop := - int_half <= v < int_half.

(** [size_t] arithmetic. *)
Definition add64 (a b : Z) : Z := to_size_t (a + b).
Definition sub64 (a b : Z) : Z := to_size_t (a - b).
Definition mul64 (a b : Z) : Z := to_size_t (a * b).

(** [int] addition. *)
Definition add32 (a b : Z) : Z := to_int (a + b).

End CInt.

Import CInt.

(** ** The [GrayScott] class: process grid and local box *)

(** The members of the class that the index functions use; all of type
    [size_t]. *)

Record GrayScott : Type := mkGrayScott {
  (* Dimension of process grid *)
  npx : Z; npy : Z; npz : Z;
  (* Coordinate of this rank in process grid *)
  px : Z; py : Z; pz : Z;
  (* Dimension of local array *)
  size_x : Z; size_y : Z; size_z : Z;
  (* Offset of local array in the global array *)
  offset_x : Z; offset_y : Z; offset_z : Z
}.

(** Every [size_t] member holds a 64-bit unsigned value. *)
Definition wf_GrayScott (g : GrayScott) : Prop :=
  is_size_t (size_x g) /\ is_size_t (size_y g) /\ is_size_t (size_z g) /\
  is_size_t (offset_x g) /\ is_size_t (offset_y g) /\ is_size_t (offset_z g).

(** [GrayScott::is_inside]: the arguments initialise the [int] parameters
    [x], [y], [z]; each parameter is converted to [size_t] before each
    comparison, and [offset + size] is a [size_t] sum. *)
Definition is_inside (g : GrayScott) (x y z : Z) : bool :=
  let x := to_int x in
  let y := to_int y in
  let z := to_int z in
  if to_size_t x <? offset_x g then false
  else if add64 (offset_x g) (size_x g) <=? to_size_t x then false
  else if to_size_t y <? offset_y g then false
  else if add64 (offset_y g) (size_y g) <=? to_size_t y then false
  else if to_size_t z <? offset_z g then false
  else if add64 (offset_z g) (size_z g) <=? to_size_t z then false
  else true.

(** [GrayScott::l2i]: the whole expression is evaluated in [size_t] and the
    result is converted to the [int] return type. *)
Definition l2i (g : GrayScott) (x y z : Z) : Z :=
  to_int
    (add64
       (add64 (to_size_t x) (mul64 (to_size_t y) (add64 (size_x g) 2)))
       (mul64 (mul64 (to_size_t z) (add64 (size_x g) 2))
              (add64 (size_y g) 2))).

(** [GrayScott::g2i]: [gx - offset_x] is a [size_t] difference stored in an
    [int]; the [+ 1] is [int] arithmetic, taken modulo 2^32 where C++ leaves
    the overflow undefined. *)
Definition g2i (g : GrayScott) (gx gy gz : Z) : Z :=
  let x := to_int (sub64 (to_size_t gx) (offset_x g)) in
  let y := to_int (sub64 (to_size_t gy) (offset_y g)) in
  let z := to_int (sub64 (to_size_t gz) (offset_z g)) in
  l2i g (add32 x 1) (add32 y 1) (add32 z 1).

(** ** The padded box as the data model describes it *)

(** Number of cells of the ghost-padded local box. *)
Definition padded_volume (g : GrayScott) : Z :=
  (size_x g + 2) * (size_y g + 2) * (size_z g + 2).

(** The flat index written as an integer formula, without any machine
    reduction. *)
Definition flat_index (g : GrayScott) (x y z : Z) : Z :=
  x + y * (size_x g + 2) + z * (size_x g + 2) * (size_y g + 2).

Definition in_padded_box (g : GrayScott) (x y z : Z) : Prop :=
  0 <= x < size_x g + 2 /\ 0 <= y < size_y g + 2 /\ 0 <= z < size_z g + 2.

Definition in_interior (g : GrayScott) (x y z : Z) : Prop :=
  1 <= x <= size_x g /\ 1 <= y <= size_y g /\ 1 <= z <= size_z g.

(** The value of [int] fits the padded box: at most [INT_MAX + 1] cells. *)
Definition fits_int (g : GrayScott) : Prop :=
  0 <= size_x g /\ 0 <= size_y g /\ 0 <= size_z g /\
  padded_volume g <= int_half.

(** Inverse of [flat_index] on the padded box. *)
Definition i2l (g : GrayScott) (i : Z) : Z * Z * Z :=
  (i mod (size_x g + 2),
   (i / (size_x g + 2)) mod (size_y g + 2),
   i / ((size_x g + 2) * (size_y g + 2))).

(** Does flat index [i] address an interior (non-ghost) cell? *)
Definition interior_index (g : GrayScott) (i : Z) : bool :=
  let '(x, y, z) := i2l g i in
  (0 <=? i) && (i <? padded_volume g) &&
  (1 <=? x) && (x <=? size_x g) &&
  (1 <=? y) && (y <=? size_y g) &&
  (1 <=? z) && (z <=? size_z g).

(** A single rank owning a cube of edge [n] at the global origin. *)
Definition cube (n : Z) : GrayScott :=
  mkGrayScott 1 1 1 0 0 0 n n n 0 0 0.

(** ** Domain decomposition as a family of per-axis extents *)

(** A decomposition is given by the list of local extents along each
    axis, ordered by process coordinate.  The rank at process coordinate
    [(i, j, k)] owns extent [ex[i] * ey[j] * ez[k]] and sits at the offset
    given by the sums of the extents that precede it on each axis. *)

Definition sum_extents (e : list Z) : Z := foldr Z.add 0 e.

Definition extent_at (e : list Z) (p : nat) : Z := default 0 (e !! p).

Definition prefix_offset (e : list Z) (p : nat) : Z := sum_extents (take p e).

Definition rank_box (ex ey ez : list Z) (p : nat * nat * nat) : GrayScott :=
  let '(i, j, k) := p in
  {| npx := Z.of_nat (length ex);
     npy := Z.of_nat (length ey);
     npz := Z.of_nat (length ez);
     px := Z.of_nat i; py := Z.of_nat j; pz := Z.of_nat k;
     size_x := extent_at ex i;
     size_y := extent_at ey j;
     size_z := extent_at ez k;
     offset_x := prefix_offset ex i;
     offset_y := prefix_offset ey j;
     offset_z := prefix_offset ez k |}.

Definition is_rank (ex ey ez : list Z) (p : nat * nat * nat) : Prop :=
  let '(i, j, k) := p in
  (i < length ex)%nat /\ (j < length ey)%nat /\ (k < length ez)%nat.

Definition valid_axis (L : Z) (e : list Z) : Prop :=
  Forall (fun s => 0 <= s) e /\ sum_extents e = L.

Definition valid_decomposition (L : Z) (ex ey ez : list Z) : Prop :=
  is_size_t L /\ valid_axis L ex /\ valid_axis L ey /\ valid_axis L ez.

(** All process coordinates of a decomposition, and the ranks whose
    [is_inside] accepts a global cell. *)
Definition all_ranks (ex ey ez : list Z) : list (nat * nat * nat) :=
  i ← seq 0 (length ex); j ← seq 0 (length ey); k ← seq 0 (length ez);
  [(i, j, k)].

Definition owners (ex ey ez : list Z) (gx gy gz : Z) : list (nat * nat * nat) :=
  filter (fun p => is_inside (rank_box ex ey ez p) gx gy gz = true)
         (all_ranks ex ey ez).

(** ** Local extents of a rank *)

Inductive Axis : Type := AxisX | AxisY | AxisZ.

Definition size_of (a : Axis) (g : GrayScott) : Z :=
  match a with AxisX => size_x g | AxisY => size_y g | AxisZ => size_z g end.

Definition offset_of (a : Axis) (g : GrayScott) : Z :=
  match a with
  | AxisX => offset_x g | AxisY => offset_y g | AxisZ => offset_z g
  end.

Definition coord_of (a : Axis) (g : GrayScott) : Z :=
  match a with AxisX => px g | AxisY => py g | AxisZ => pz g end.

Definition procs_of (a : Axis) (g : GrayScott) : Z :=
  match a with AxisX => npx g | AxisY => npy g | AxisZ => npz g end.

Inductive ConfigResult : Type :=
| Configured (g : GrayScott)
| InvalidConfiguration.

(** Modelled from the spec: the routine that computes a rank's local
    extents and offsets (the body of the [GrayScott] constructor and of
    [init_mpi]) is not among the sources.  Along one axis, [L] cells are
    divided as evenly as possible over [n] process coordinates and the
    remainder goes to the lowest coordinates. *)
Definition axis_extent (L n p : Z) : Z :=
  L / n + (if p <? L mod n then 1 else 0).

(** Modelled from the spec: the extents of all process coordinates of one
    axis, in coordinate order. *)
Definition axis_extents (L n : Z) : list Z :=
  axis_extent L n <$> seqZ 0 n.

(** Modelled from the spec: the offset of coordinate [p] accumulates the
    extents of the coordinates that precede it on the axis. *)
Definition axis_offset (L n p : Z) : Z :=
  prefix_offset (axis_extents L n) (Z.to_nat p).

(** Modelled from the spec: [local_extents(L, coordinate, topology)]; an
    axis shorter than its process count is an invalid configuration. *)
Definition local_extents (L : Z) (coordinate topology : Z * Z * Z)
  : ConfigResult :=
  let '(cx, cy, cz) := coordinate in
  let '(nx, ny, nz) := topology in
  if (L <? nx) || (L <? ny) || (L <? nz) then InvalidConfiguration
  else Configured
         {| npx := nx; npy := ny; npz := nz;
            px := cx; py := cy; pz := cz;
            size_x := axis_extent L nx cx;
            size_y := axis_extent L ny cy;
            size_z := axis_extent L nz cz;
            offset_x := axis_offset L nx cx;
            offset_y := axis_offset L ny cy;
            offset_z := axis_offset L nz cz |}.

(** A process coordinate of a topology: every component is within the
    process count of its axis, and every process count is positive. *)
Definition in_topology (coordinate topology : Z * Z * Z) : Prop :=
  let '(cx, cy, cz) := coordinate in
  let '(nx, ny, nz) := topology in
  0 <= cx < nx /\ 0 <= cy < ny /\ 0 <= cz < nz.

(** ** The step-oriented persistence collaborator *)

Module Adios.

(** Modelled from the spec: what [begin_step] reports.  The drivers only
    test for [OK]. *)
Inductive StepStatus : Type := OK | StepUnavailable.

Inductive Mode : Type := Write | Read.

Inductive Error : Type := PersistenceFailure.

(** The payload of the array for one step. *)
Abbreviation Step elem := (list elem) (only parsing).

(** The persisted sequences, by file name. *)
Abbreviation Files elem := (gmap string (list (list elem))) (only parsing).

Section Engine.

Variable elem : Type.

(** Modelled from the spec: an open engine on one persisted sequence. *)
Record Engine : Type := mkEngine {
  eng_name : string;
  eng_mode : Mode;
  eng_steps : list (Step elem);   (* the persisted sequence *)
  eng_pos : nat;                  (* index of the next step to read *)
  eng_open : option (Step elem)   (* the step currently bracketed *)
}.

(** Modelled from the spec: the persistence collaborator is a library
    outside the sources.  Opening for writing starts an empty sequence;
    opening for reading needs an existing sequence and starts before its
    first step. *)
Definition Open (fs : Files elem) (fname : string) (m : Mode)
  : Error + Engine :=
  match m with
  | Write => inr (mkEngine fname Write [] 0 None)
  | Read =>
      match fs !! fname with
      | Some steps => inr (mkEngine fname Read steps 0 None)
      | None => inl PersistenceFailure
      end
  end.

(** Modelled from the spec: [begin_step] opens the next step of the
    sequence; a reader gets [StepUnavailable] when no further step
    exists. *)
Definition BeginStep (e : Engine) : StepStatus * Engine :=
  match eng_mode e with
  | Write =>
      (OK, mkEngine (eng_name e) Write (eng_steps e) (eng_pos e) (Some []))
  | Read =>
      match eng_steps e !! eng_pos e with
      | Some s =>
          (OK, mkEngine (eng_name e) Read (eng_steps e) (eng_pos e) (Some s))
      | None => (StepUnavailable, e)
      end
  end.

(** Modelled from the spec: [write] hands the local buffer to the step
    being written, after the operation attached to the array. *)
Definition Put (op : Step elem -> Step elem) (e : Engine) (buf : Step elem)
  : Engine :=
  mkEngine (eng_name e) (eng_mode e) (eng_steps e) (eng_pos e)
           (Some (op buf)).

(** Modelled from the spec: [read] returns the selection of the current
    step. *)
Definition Get (e : Engine) : Step elem := default [] (eng_open e).

(** Modelled from the spec: [end_step] closes the bracket; a writer
    appends the step to the sequence, a reader moves to the next step. *)
Definition EndStep (e : Engine) : Engine :=
  match eng_mode e with
  | Write =>
      mkEngine (eng_name e) Write
               (eng_steps e ++ [default [] (eng_open e)]) (eng_pos e) None
  | Read =>
      mkEngine (eng_name e) Read (eng_steps e) (S (eng_pos e)) None
  end.

(** Modelled from the spec: [close] finalizes the persisted sequence. *)
Definition Close (fs : Files elem) (e : Engine) : Files elem :=
  match eng_mode e with
  | Write => <[eng_name e := eng_steps e]> fs
  | Read => fs
  end.

End Engine.

End Adios.

(** ** The write/read drivers *)

(** What one run of [BPRead] did: its return value, the final value of the
    [step] counter, the payload printed for each step, and the statuses
    returned by its successive [BeginStep] calls. *)
Record ReadRun (elem : Type) : Type := mkReadRun {
  run_ret : Z;
  run_step : Z;
  run_printed : list (Z * list elem);
  run_statuses : list Adios.StepStatus
}.

Arguments mkReadRun {elem}.
Arguments run_ret {elem}.
Arguments run_step {elem}.
Arguments run_printed {elem}.
Arguments run_statuses {elem}.

(** Outcome of a driver whose loop is bounded by fuel in the model. *)
Inductive Outcome (A : Type) : Type :=
| Returned (a : A)
| Threw (e : Adios.Error)
| OutOfFuel.

Arguments Returned {A}.
Arguments Threw {A}.
Arguments OutOfFuel {A}.

(** [unsigned int] increment. *)
Definition incr_uint (v : Z) : Z := (v + 1) mod int_mod.

(** The element type [float] of the demo buffers: the conversion of an
    index to it, the [+= 10] update and the lossy operation that the
    Kokkos writer attaches to the array are kept abstract. *)
Class FloatBuffer (elem : Type) : Type := {
  of_index : Z -> elem;
  plus10 : elem -> elem;
  mgard : list elem -> list elem
}.

(** The buffer after initialisation: entry [i] holds [i]. *)
Definition init_buffer `{FloatBuffer elem} (N : Z) : list elem :=
  of_index <$> seqZ 0 N.

Module KokkosWR.

Import Adios.

(** The step loop of [BPWrite], run [count] times. *)
Fixpoint write_steps `{FloatBuffer elem} (count : nat)
         (w : Engine elem) (buf : list elem) : Engine elem :=
  match count with
  | O => w
  | S count' =>
      let w := snd (BeginStep elem w) in
      let w := Put elem mgard w buf in
      let w := EndStep elem w in
      write_steps count' w (plus10 <$> buf)
  end.

(** [BPWrite]: [nSteps] is an [int] compared with a [size_t] counter. *)
Definition BPWrite `{FloatBuffer elem} (fs : Files elem) (fname : string)
           (N nSteps : Z) : Outcome (Z * Files elem) :=
  match Open elem fs fname Write with
  | inl err => Threw err
  | inr w =>
      let w := write_steps (Z.to_nat (to_size_t nSteps)) w (init_buffer N) in
      Returned (0, Close elem fs w)
  end.

(** The loop [for (; bpReader.BeginStep() == OK; ++step)] of [BPRead]. *)
Fixpoint read_steps {elem} (fuel : nat) (r : Engine elem) (step : Z)
         (printed : list (Z * list elem)) (statuses : list StepStatus)
  : option (ReadRun elem) :=
  match fuel with
  | O => None
  | S fuel' =>
      match BeginStep elem r with
      | (OK, r) =>
          let data := Get elem r in
          let r := EndStep elem r in
          read_steps fuel' r (incr_uint step)
                     (printed ++ [(step, data)]) (statuses ++ [OK])
      | (st, r) => Some (mkReadRun 0 step printed (statuses ++ [st]))
      end
  end.

(** [BPRead]: opens the sequence, runs the loop, returns 0.  The selection
    [{0}..{N}] is taken to be the whole payload of a step, as it is for a
    sequence whose steps have [N] entries. *)
Definition BPRead {elem} (fuel : nat) (fs : Files elem) (fname : string)
           (N : Z) : Outcome (ReadRun elem) :=
  match Open elem fs fname Read with
  | inl err => Threw err
  | inr r =>
      match read_steps fuel r 0 [] [] with
      | Some run => Returned run
      | None => OutOfFuel
      end
  end.

End KokkosWR.

(** Outcome of the calls into the HIP runtime: the allocation, the k-th
    device synchronisation and the k-th copy to the host. *)
Record HipRuntime : Type := mkHipRuntime {
  hipMalloc_ok : bool;
  hipDeviceSynchronize_ok : nat -> bool;
  hipMemcpy_ok : nat -> bool
}.

Module HipWR.

Import Adios.

(** The step loop of [BPWrite]; [k] counts the synchronisations done so
    far.  [None] is the early [return 1]. *)
Fixpoint write_steps_hip `{FloatBuffer elem} (hip : HipRuntime) (count k : nat)
         (w : Engine elem) (buf : list elem) : option (Engine elem) :=
  match count with
  | O => Some w
  | S count' =>
      let w := snd (BeginStep elem w) in
      let w := Put elem id w buf in
      let w := EndStep elem w in
      if hipDeviceSynchronize_ok hip k
      then write_steps_hip hip count' (S k) w (plus10 <$> buf)
      else None
  end.

(** [BPWrite] of the HIP driver: [return 1] when the allocation or a
    synchronisation fails.  A sequence whose engine is never closed is not
    finalized, so the early returns leave the persisted sequences as they
    were.  The launch of [dim3(N)] blocks is taken to initialise all [N]
    entries, as it does when [N] fits the 32-bit grid dimension. *)
Definition BPWrite `{FloatBuffer elem} (hip : HipRuntime) (fs : Files elem)
           (fname : string) (N nSteps : Z) : Outcome (Z * Files elem) :=
  if negb (hipMalloc_ok hip) then Returned (1, fs)
  else if negb (hipDeviceSynchronize_ok hip 0) then Returned (1, fs)
  else
    match Open elem fs fname Write with
    | inl err => Threw err
    | inr w =>
        match write_steps_hip hip (Z.to_nat (to_size_t nSteps)) 1 w
                          (init_buffer N) with
        | Some w => Returned (0, Close elem fs w)
        | None => Returned (1, fs)
        end
    end.

(** The loop of [BPRead]; [k] counts the copies to the host. *)
Fixpoint read_steps_hip {elem} (hip : HipRuntime) (fuel k : nat)
         (r : Engine elem) (step : Z)
         (printed : list (Z * list elem)) (statuses : list StepStatus)
  : option (ReadRun elem) :=
  match fuel with
  | O => None
  | S fuel' =>
      match BeginStep elem r with
      | (OK, r) =>
          let data := Get elem r in
          let r := EndStep elem r in
          if hipMemcpy_ok hip k
          then read_steps_hip hip fuel' (S k) r (incr_uint step)
                          (printed ++ [(step, data)]) (statuses ++ [OK])
          else Some (mkReadRun 1 step printed (statuses ++ [OK]))
      | (st, r) => Some (mkReadRun 0 step printed (statuses ++ [st]))
      end
  end.

(** [BPRead] of the HIP driver: the engine is opened before the
    allocation; [return 1] when the allocation or a copy fails.  The
    selection [{0}..{N}] is taken to be the whole payload of a step. *)
Definition BPRead {elem} (hip : HipRuntime) (fuel : nat) (fs : Files elem)
           (fname : string) (N : Z) : Outcome (ReadRun elem) :=
  match Open elem fs fname Read with
  | inl err => Threw err
  | inr r =>
      if negb (hipMalloc_ok hip) then Returned (mkReadRun 1 0 [] [])
      else
        match read_steps_hip hip fuel 0 r 0 [] [] with
        | Some run => Returned run
        | None => OutOfFuel
        end
  end.

End HipWR.


(** A buffer of integers, for running the drivers. *)
Definition Z_buffer : FloatBuffer Z :=
  {| of_index := fun i => i; plus10 := fun v => v + 10; mgard := fun b => b |}.

(** A runtime in which every HIP call succeeds. *)
Definition hip_all_ok : HipRuntime :=
  mkHipRuntime true (fun _ => true) (fun _ => true).

(** The sequence a writer persists in [count] steps from buffer [buf],
    each payload passed through [op]. *)
Fixpoint written `{FloatBuffer elem} (op : list elem -> list elem)
         (count : nat) (buf : list elem) : list (list elem) :=
  match count with
  | O => []
  | S count' => op buf :: written op count' (plus10 <$> buf)
  end.


(** Every call into the HIP runtime succeeds. *)
Definition hip_succeeds (hip : HipRuntime) : Prop :=
  hipMalloc_ok hip = true /\
  (forall k, hipDeviceSynchronize_ok hip k = true) /\
  (forall k, hipMemcpy_ok hip k = true).

(** ** Array writes driven by a list of cells *)

(** For every cell [c] of [cs], in order, store [w c] at position
    [idx c] of the array. *)
Definition scatter {A C : Type} (idx : C -> nat) (w : C -> A)
           (d : list A) (cs : list C) : list A :=
  foldl (fun d c => <[idx c := w c]> d) d cs.

(** ** Field store *)

(** The four views [u], [v], [u2], [v2] of the class: the current and the
    next buffer of each field, as flat arrays of [double]. *)
Record Fields : Type := mkFields {
  u : list float;
  v : list float;
  u2 : list float;
  v2 : list float
}.

(** Modelled from the spec: the settings header is not among the sources.
    Edge length of the cubic domain, diffusion and reaction constants,
    timestep and noise amplitude. *)
Record Settings : Type := mkSettings {
  L : Z;
  Du : float;
  Dv : float;
  F : float;
  k : float;
  dt : float;
  noise : float
}.

(** A local cell of the padded box. *)
Abbreviation Cell := (Z * Z * Z)%type (only parsing).

(** Modelled from the spec: the accesses of the missing bodies go through
    the local-to-flat index of the data model,
    x + y*(size_x+2) + z*(size_x+2)*(size_y+2). *)
Definition cell_index (g : GrayScott) (c : Cell) : nat :=
  let '(x, y, z) := c in Z.to_nat (flat_index g x y z).

(** Read of a padded buffer at a local cell. *)
Definition get (s : list float) (g : GrayScott) (x y z : Z) : float :=
  default 0%float (s !! cell_index g (x, y, z)).

(** The same read, at a cell given as a triple. *)
Definition get_cell (s : list float) (g : GrayScott) (c : Cell) : float :=
  let '(x, y, z) := c in get s g x y z.

(** Modelled from the spec: the interior cells, local coordinates
    [1..size] on each axis; x fastest, then y, then z. *)
Definition interior_cells (g : GrayScott) : list Cell :=
  z ← seqZ 1 (size_z g); y ← seqZ 1 (size_y g); x ← seqZ 1 (size_x g);
  [(x, y, z)].

(** Every buffer of the store has one entry per cell of the padded box. *)
Definition fields_sized (g : GrayScott) (f : Fields) : Prop :=
  Z.of_nat (length (u f)) = padded_volume g /\
  Z.of_nat (length (v f)) = padded_volume g /\
  Z.of_nat (length (u2 f)) = padded_volume g /\
  Z.of_nat (length (v2 f)) = padded_volume g.

(** A [double] that is neither NaN nor an infinity. *)
Definition finite_double (x : float) : bool :=
  match Prim2SF x with
  | S754_zero _ | S754_finite _ _ _ => true
  | S754_infinity _ | S754_nan => false
  end.

(** ** Reaction-diffusion stepper *)

(** Modelled from the spec: the body of [laplacian] is not among the
    sources.  Seven-point stencil with unit grid spacing: each of the six
    face neighbours has weight +1, the centre has weight -6. *)
Definition laplacian (g : GrayScott) (ix iy iz : Z) (s : list float)
  : float :=
  (get s g (ix - 1) iy iz + get s g (ix + 1) iy iz
   + get s g ix (iy - 1) iz + get s g ix (iy + 1) iz
   + get s g ix iy (iz - 1) + get s g ix iy (iz + 1)
   - 6 * get s g ix iy iz)%float.

(** Modelled from the spec: the body of [calcU] is not among the sources.
    Reaction term R_u = -U*V^2 + F*(1-U). *)
Definition calcU (st : Settings) (tu tv : float) : float :=
  (- tu * tv * tv + F st * (1 - tu))%float.

(** Modelled from the spec: the body of [calcV] is not among the sources.
    Reaction term R_v = U*V^2 - (F+k)*V. *)
Definition calcV (st : Settings) (tu tv : float) : float :=
  (tu * tv * tv - (F st + k st) * tv)%float.

(** Modelled from the spec: the new values of one cell in the body of
    [calc], read from the current buffers [cu], [cv]:
    U' = U + dt*(Du*lap(U) + R_u) and V' = V + dt*(Dv*lap(V) + R_v). *)
Definition next_u (st : Settings) (g : GrayScott) (cu cv : list float)
           (c : Cell) : float :=
  let '(x, y, z) := c in
  (get cu g x y z
   + dt st * (Du st * laplacian g x y z cu
              + calcU st (get cu g x y z) (get cv g x y z)))%float.

Definition next_v (st : Settings) (g : GrayScott) (cu cv : list float)
           (c : Cell) : float :=
  let '(x, y, z) := c in
  (get cv g x y z
   + dt st * (Dv st * laplacian g x y z cv
              + calcV st (get cu g x y z) (get cv g x y z)))%float.

(** Modelled from the spec: the update of one interior cell reads the
    current buffers and writes the next ones. *)
Definition calc_cell (st : Settings) (g : GrayScott) (f : Fields) (c : Cell)
  : Fields :=
  {| u := u f;
     v := v f;
     u2 := <[cell_index g c := next_u st g (u f) (v f) c]> (u2 f);
     v2 := <[cell_index g c := next_v st g (u f) (v f) c]> (v2 f) |}.

(** Modelled from the spec: the sweep over the interior volume. *)
Definition sweep (st : Settings) (g : GrayScott) (f : Fields) : Fields :=
  foldl (calc_cell st g) f (interior_cells g).

(** Modelled from the spec: the body of [calc] is not among the sources.
    One timestep: the sweep, then the swap of current and next buffers. *)
Definition calc (st : Settings) (g : GrayScott) (f : Fields) : Fields :=
  let f' := sweep st g f in
  {| u := u2 f'; v := v2 f'; u2 := u f'; v2 := v f' |}.

(** The store in which every cell of [u] holds [a] and every cell of [v]
    holds [b]. *)
Definition uniform_fields (g : GrayScott) (a b : float) : Fields :=
  let n := Z.to_nat (padded_volume g) in
  mkFields (replicate n a) (replicate n b)
           (replicate n 0%float) (replicate n 0%float).

(** A [double] zero of either sign. *)
Definition zeroish (x : float) : Prop := x = 0%float \/ x = (-0)%float.

(** Every cell of the padded box holds [a] in [u] and [b] in [v]. *)
Definition uniform (g : GrayScott) (f : Fields) (a b : float) : Prop :=
  forall x y z, in_padded_box g x y z ->
                get (u f) g x y z = a /\ get (v f) g x y z = b.

(** The scenario of the testable properties: L = 8 on a 2x2x2 process
    grid, Du = Dv = 0.2, F = 0.04, k = 0.06 (each rounded to the nearest
    [double]), dt = 1, no noise; and the rank at process coordinate
    (1, 0, 1). *)
Definition scenario_settings : Settings :=
  mkSettings 8 0x1.999999999999ap-3%float 0x1.999999999999ap-3%float
             0x1.47ae147ae147bp-5%float 0x1.eb851eb851eb8p-5%float
             1%float 0%float.

Definition scenario_rank : GrayScott :=
  mkGrayScott 2 2 2 1 0 1 4 4 4 4 0 4.

(** ** Restart/checkpoint bridge *)

(** For every cell [c] of [cs], in order, store [w c] under key [key c]. *)
Definition gscatter {A C : Type} `{Countable K} (key : C -> K) (w : C -> A)
           (m : gmap K A) (cs : list C) : gmap K A :=
  foldl (fun m c => <[key c := w c]> m) m cs.

(** Modelled from the spec: the global cell that a local interior cell of
    a rank stands for, as the selection offset -> extent places it. *)
Definition global_of (g : GrayScott) (c : Cell) : Cell :=
  let '(x, y, z) := c in
  (offset_x g + x - 1, offset_y g + y - 1, offset_z g + z - 1).

(** Modelled from the spec: the body of [data_noghost] is not among the
    sources.  The interior of a padded buffer as a contiguous buffer, x
    fastest, then y, then z. *)
Definition data_noghost (g : GrayScott) (data : list float) : list float :=
  get_cell data g <$> interior_cells g.

(** Modelled from the spec: [u_noghost] and [v_noghost], the ghost-free
    copies of the current U and V. *)
Definition u_noghost (g : GrayScott) (f : Fields) : list float :=
  data_noghost g (u f).

Definition v_noghost (g : GrayScott) (f : Fields) : list float :=
  data_noghost g (v f).

(** A persisted array of global shape [L, L, L], by global cell. *)
Abbreviation GlobalArray := (gmap (Z * Z * Z) float) (only parsing).

(** Modelled from the spec: the two named arrays of a checkpoint
    record. *)
Record Checkpoint : Type := mkCheckpoint {
  ckpt_u : GlobalArray;
  ckpt_v : GlobalArray
}.

(** Modelled from the spec: the collaborator's [write] of a contiguous
    local buffer under the selection offset -> extent of the rank. *)
Definition write_selection (g : GrayScott) (buf : list float)
           (arr : GlobalArray) : GlobalArray :=
  foldl (fun a cv => <[global_of g cv.1 := cv.2]> a) arr
        (zip (interior_cells g) buf).

(** Modelled from the spec: the collaborator's [read] of the rank's
    selection; it fails when a cell of the selection was never written. *)
Definition read_selection (g : GrayScott) (arr : GlobalArray)
  : option (list float) :=
  mapM (fun c => arr !! global_of g c) (interior_cells g).

(** Modelled from the spec: [checkpoint] strips the ghosts of U and V and
    writes both arrays under the rank's selection. *)
Definition checkpoint (g : GrayScott) (f : Fields) (ck : Checkpoint)
  : Checkpoint :=
  {| ckpt_u := write_selection g (u_noghost g f) (ckpt_u ck);
     ckpt_v := write_selection g (v_noghost g f) (ckpt_v ck) |}.

(** Modelled from the spec: the re-insertion done by [restart], of a
    contiguous interior buffer into a zeroed padded buffer. *)
Definition data_ghost (g : GrayScott) (buf : list float) : list float :=
  foldl (fun d cv => <[cell_index g cv.1 := cv.2]> d)
        (replicate (Z.to_nat (padded_volume g)) 0%float)
        (zip (interior_cells g) buf).

(** Modelled from the spec: the body of [restart] is not among the
    sources.  The two interior buffers become the current state, ghost
    layers left zero. *)
Definition restart (g : GrayScott) (f : Fields) (bu bv : list float)
  : Fields :=
  {| u := data_ghost g bu; v := data_ghost g bv; u2 := u2 f; v2 := v2 f |}.

(** Modelled from the spec: [restore] reads both arrays restricted to the
    rank's selection and re-inserts them. *)
Definition restore (ck : Checkpoint) (g : GrayScott) (f : Fields)
  : option Fields :=
  bu ← read_selection g (ckpt_u ck);
  bv ← read_selection g (ckpt_v ck);
  Some (restart g f bu bv).

(** The checkpoint written by all ranks of a decomposition, rank after
    rank; [fields p] is the store of the rank at process coordinate [p]. *)
Definition checkpoint_all (ex ey ez : list Z)
           (fields : nat * nat * nat -> Fields) : Checkpoint :=
  foldl (fun ck p => checkpoint (rank_box ex ey ez p) (fields p) ck)
        (mkCheckpoint ∅ ∅) (all_ranks ex ey ez).

(** All interior cells of all ranks of a decomposition, in the order in
    which [checkpoint_all] writes them. *)
Definition all_cells (ex ey ez : list Z) : list (nat * nat * nat * Cell) :=
  p ← all_ranks ex ey ez;
  (fun c => (p, c)) <$> interior_cells (rank_box ex ey ez p).

(** A buffer of [n] distinct values [x, x+1, ...], and a store built from
    two of them, for running the bridge on a padded box of [n] cells. *)
Fixpoint ramp (n : nat) (x : float) : list float :=
  match n with
  | O => []
  | S n' => x :: ramp n' (x + 1)%float
  end.

Definition ramp_fields (n : nat) : Fields :=
  mkFields (ramp n 0%float) (ramp n 1000%float)
           (replicate n 0%float) (replicate n 0%float).

(** ** The rest of the drivers: kernels, host writers, [main] *)

(** A launch of [blocks] independent blocks of one thread each (and a
    [parallel_for] over [0, blocks)): block [b] runs [body b] on the
    buffer.  The blocks touch distinct entries, so they are run in index
    order. *)
Definition launch {elem} (blocks : nat) (body : nat -> list elem -> list elem)
           (vec : list elem) : list elem :=
  foldl (fun vec b => body b vec) vec (seq 0 blocks).

(** [hip_initialize]: [vec[hipBlockIdx_x] = hipBlockIdx_x]. *)
Definition hip_initialize `{FloatBuffer elem} (b : nat) (vec : list elem)
  : list elem :=
  <[b := of_index (Z.of_nat b)]> vec.

(** [hip_increment] with [val = 10]: [vec[hipBlockIdx_x] += val]. *)
Definition hip_increment `{FloatBuffer elem} (b : nat) (vec : list elem)
  : list elem :=
  alter plus10 b vec.

(** The statement that prints one step: [cpuData.size()], [cpuData[0]],
    [cpuData[1]] and [cpuData[cpuData.size() - 1]].  The element accesses
    are unchecked; [None] stands for an access outside the buffer. *)
Definition print_step {elem} (step : Z) (cpuData : list elem)
  : option (Z * Z * elem * elem * elem) :=
  first ← cpuData !! 0%nat;
  second ← cpuData !! 1%nat;
  last ← cpuData !! Z.to_nat (sub64 (Z.of_nat (length cpuData)) 1);
  Some (step, Z.of_nat (length cpuData), first, second, last).

(** The value [N] that [main] passes on: 6000, or [atoi(argv[1])]
    converted to [size_t] when an argument is given.  [argv1] is what
    [atoi] returns. *)
Definition main_N (argv1 : option Z) : Z :=
  match argv1 with
  | Some n => to_size_t n
  | None => 6000
  end.

(** The command lines for which [main] can get its [N]-entry buffers: no
    argument, or one for which [atoi] returns a non-negative [int].  A
    negative [int] converts to an [N] of at least 2^64 - 2^31, and
    [std::vector<float> cpuSimData(N)] throws for such a size. *)
Definition nonneg_count (argv1 : option Z) : Prop :=
  match argv1 with
  | Some n => 0 <= n < int_half
  | None => True
  end.

Module KokkosDriver.

Import Adios.

(** [BPWriteCPU] of write-read-kokkos.cpp: a host buffer filled by
    [std::iota], the same step loop as [BPWrite] with the update done by
    [std::for_each]. *)
Definition BPWriteCPU `{FloatBuffer elem} (fs : Files elem) (fname : string)
           (N nSteps : Z) : Outcome (Z * Files elem) :=
  match Open elem fs fname Write with
  | inl err => Threw err
  | inr w =>
      let w := KokkosWR.write_steps (Z.to_nat (to_size_t nSteps)) w
                                    (init_buffer N) in
      Returned (0, Close elem fs w)
  end.

(** [main] of write-read-kokkos.cpp: one engine, "BP5"; the device writer
    and then the host writer, each into its own file; the reader is not
    called.  The allocations of the [N]-entry view and vector are taken to
    succeed, which leaves out the command lines that [nonneg_count]
    excludes. *)
Definition main `{FloatBuffer elem} (fs : Files elem) (argv1 : option Z)
  : Outcome (Z * Files elem) :=
  let N := main_N argv1 in
  let nSteps := 10 in
  match KokkosWR.BPWrite fs ("BP5" +:+ "_Kokkos_WR.bp") N nSteps with
  | Returned (r1, fs1) =>
      match BPWriteCPU fs1 ("BP5" +:+ "_CPU_WR.bp") N nSteps with
      | Returned (r2, fs2) => Returned (add32 (add32 0 r1) r2, fs2)
      | Threw err => Threw err
      | OutOfFuel => OutOfFuel
      end
  | Threw err => Threw err
  | OutOfFuel => OutOfFuel
  end.

End KokkosDriver.

Module HipDriver.

Import Adios.

(** The step loop of [BPWriteCPU] of the HIP driver: the host buffer is
    written as it is in every step; nothing updates it. *)
Fixpoint write_steps_cpu {elem} (count : nat) (w : Engine elem)
         (buf : list elem) : Engine elem :=
  match count with
  | O => w
  | S count' =>
      let w := snd (BeginStep elem w) in
      let w := Put elem id w buf in
      let w := EndStep elem w in
      write_steps_cpu count' w buf
  end.

(** [BPWriteCPU] of the HIP driver: [std::vector<float> cpuSimData(N)] is
    value-initialised, so every entry is the [float] zero. *)
Definition BPWriteCPU `{FloatBuffer elem} (fs : Files elem) (fname : string)
           (N nSteps : Z) : Outcome (Z * Files elem) :=
  match Open elem fs fname Write with
  | inl err => Threw err
  | inr w =>
      let w := write_steps_cpu (Z.to_nat (to_size_t nSteps)) w
                               (replicate (Z.to_nat N) (of_index 0)) in
      Returned (0, Close elem fs w)
  end.

(** [main] of the HIP driver: [return 1] when the device cannot be
    selected; otherwise, for the one engine "BP4", the writer and then the
    reader on the same file, the return values added up.  The result also
    carries what the reader did. *)
Definition main `{FloatBuffer elem} (hipSetDevice_ok : bool)
           (hip : HipRuntime) (fuel : nat) (fs : Files elem)
           (argv1 : option Z)
  : Outcome (Z * Files elem * option (ReadRun elem)) :=
  if negb hipSetDevice_ok then Returned (1, fs, None)
  else
    let N := main_N argv1 in
    let nSteps := 10 in
    let fname := "BP4" +:+ "_HIP_WR.bp" in
    match HipWR.BPWrite hip fs fname N nSteps with
    | Returned (r1, fs1) =>
        match HipWR.BPRead hip fuel fs1 fname N with
        | Returned run =>
            Returned (add32 (add32 0 r1) (run_ret run), fs1, Some run)
        | Threw err => Threw err
        | OutOfFuel => OutOfFuel
        end
    | Threw err => Threw err
    | OutOfFuel => OutOfFuel
    end.

End HipDriver.


(** The number of iterations of a loop [for (size_t step = 0; step <
    nSteps; ++step)] with [nSteps] an [int]. *)
Definition write_count (nSteps : Z) : Z :=
  if nSteps <? 0 then size_t_mod + nSteps else nSteps.

(** A rank whose box ends at least 2^31 below the top of the [size_t]
    range, on every axis: no converted negative [int] can reach it. *)
Definition box_below_wrap (g : GrayScott) : Prop :=
  offset_x g + size_x g <= size_t_mod - int_half /\
  offset_y g + size_y g <= size_t_mod - int_half /\
  offset_z g + size_z g <= size_t_mod - int_half.

(** * Properties *)

(** ** Modular arithmetic helpers *)

Section Modular.

Lemma size_t_mod_pos : 0 < size_t_mod.
Proof. reflexivity. Qed.

Lemma int_mod_pos : 0 < int_mod.
Proof. reflexivity. Qed.

Lemma size_t_mod_int_mod : size_t_mod = int_mod * int_mod.
Proof. reflexivity. Qed.

Lemma to_size_t_small v : is_size_t v -> to_size_t v = v.
Proof. intros H. apply Z.mod_small. exact H. Qed.

Lemma to_size_t_range v : is_size_t (to_size_t v).
Proof. apply Z.mod_pos_bound. reflexivity. Qed.

Lemma to_int_small v : is_int v -> to_int v = v.
Proof.
  unfold is_int, to_int. intros H.
  assert (int_mod = int_half + int_half) as E by reflexivity.
  rewrite Z.mod_small; lia.
Qed.

Lemma to_int_range v : is_int (to_int v).
Proof.
  unfold is_int, to_int.
  pose proof (Z.mod_pos_bound (v + int_half) int_mod int_mod_pos) as H.
  assert (int_mod = int_half + int_half) as E by reflexivity. lia.
Qed.

(** [to_int] only looks at the value modulo [2^32]. *)
Lemma to_int_congr a b : a mod int_mod = b mod int_mod -> to_int a = to_int b.
Proof.
  intros H. unfold to_int.
  rewrite <- (Z.add_mod_idemp_l a) by (pose proof int_mod_pos; lia).
  rewrite <- (Z.add_mod_idemp_l b) by (pose proof int_mod_pos; lia).
  now rewrite H.
Qed.

Lemma to_int_mod32 a : to_int a mod int_mod = a mod int_mod.
Proof.
  unfold to_int.
  rewrite Zminus_mod_idemp_l.
  f_equal. lia.
Qed.

Lemma to_size_t_mod32 a : to_size_t a mod int_mod = a mod int_mod.
Proof.
  unfold to_size_t. rewrite size_t_mod_int_mod.
  rewrite Z.rem_mul_r by (pose proof int_mod_pos; lia).
  rewrite Z.mul_comm, Z.mod_add by (pose proof int_mod_pos; lia).
  apply Z.mod_mod. pose proof int_mod_pos; lia.
Qed.

Lemma to_int_to_size_t a : to_int (to_size_t a) = to_int a.
Proof. apply to_int_congr, to_size_t_mod32. Qed.

Lemma add_congr32 a a' b b' :
  a mod int_mod = a' mod int_mod -> b mod int_mod = b' mod int_mod ->
  (a + b) mod int_mod = (a' + b') mod int_mod.
Proof. intros Ha Hb. rewrite Z.add_mod, Ha, Hb, <- Z.add_mod; done. Qed.

Lemma sub_congr32 a a' b b' :
  a mod int_mod = a' mod int_mod -> b mod int_mod = b' mod int_mod ->
  (a - b) mod int_mod = (a' - b') mod int_mod.
Proof. intros Ha Hb. rewrite Zminus_mod, Ha, Hb, <- Zminus_mod; done. Qed.

Lemma mul_congr32 a a' b b' :
  a mod int_mod = a' mod int_mod -> b mod int_mod = b' mod int_mod ->
  (a * b) mod int_mod = (a' * b') mod int_mod.
Proof. intros Ha Hb. rewrite Z.mul_mod, Ha, Hb, <- Z.mul_mod; done. Qed.

Lemma add64_mod32 a b : add64 a b mod int_mod = (a + b) mod int_mod.
Proof. apply to_size_t_mod32. Qed.

Lemma sub64_mod32 a b : sub64 a b mod int_mod = (a - b) mod int_mod.
Proof. apply to_size_t_mod32. Qed.

Lemma mul64_mod32 a b : mul64 a b mod int_mod = (a * b) mod int_mod.
Proof. apply to_size_t_mod32. Qed.

Lemma add32_mod32 a b : add32 a b mod int_mod = (a + b) mod int_mod.
Proof. apply to_int_mod32. Qed.

End Modular.

(** [l2i] is the integer formula reduced to the [int] range. *)
Lemma l2i_to_int g x y z : l2i g x y z = to_int (flat_index g x y z).
Proof.
  unfold l2i, flat_index. apply to_int_congr.
  rewrite add64_mod32.
  apply add_congr32.
  - rewrite add64_mod32. apply add_congr32.
    + apply to_size_t_mod32.
    + rewrite mul64_mod32. apply mul_congr32.
      * apply to_size_t_mod32.
      * apply add64_mod32.
  - rewrite mul64_mod32. apply mul_congr32.
    + rewrite mul64_mod32. apply mul_congr32.
      * apply to_size_t_mod32.
      * apply add64_mod32.
    + apply add64_mod32.
Qed.

(** The integer formula depends on its coordinates only modulo [2^32] once
    reduced to [int]. *)
Lemma l2i_congr g x x' y y' z z' :
  x mod int_mod = x' mod int_mod ->
  y mod int_mod = y' mod int_mod ->
  z mod int_mod = z' mod int_mod ->
  l2i g x y z = l2i g x' y' z'.
Proof.
  intros Hx Hy Hz. rewrite !l2i_to_int. apply to_int_congr.
  unfold flat_index.
  repeat (first [apply add_congr32 | apply mul_congr32]); done.
Qed.

(** The conversion of the arguments to the [int] parameters of [l2i] and
    [g2i] does not change what they return. *)
Lemma l2i_narrow g x y z :
  l2i g (to_int x) (to_int y) (to_int z) = l2i g x y z.
Proof. apply l2i_congr; apply to_int_mod32. Qed.

Lemma g2i_narrow g gx gy gz :
  g2i g (to_int gx) (to_int gy) (to_int gz) = g2i g gx gy gz.
Proof.
  unfold g2i. apply l2i_congr;
    rewrite !add32_mod32; apply add_congr32; try done;
    rewrite !to_int_mod32, !sub64_mod32; apply sub_congr32; try done;
    by rewrite !to_size_t_mod32, to_int_mod32.
Qed.

(** ** [flat_index] and [i2l] are mutually inverse on the padded box *)

Section Decode.

Variable g : GrayScott.
Hypothesis Hsx : 0 <= size_x g.
Hypothesis Hsy : 0 <= size_y g.
Hypothesis Hsz : 0 <= size_z g.

Lemma flat_index_range x y z :
  in_padded_box g x y z -> 0 <= flat_index g x y z < padded_volume g.
Proof.
  unfold in_padded_box, flat_index, padded_volume.
  intros (Bx & By & Bz). split; [nia|].
  set (X := size_x g + 2) in *. set (Y := size_y g + 2) in *.
  set (Zd := size_z g + 2) in *.
  assert (x + y * X <= X * Y - 1) by nia.
  assert (z * X * Y <= (Zd - 1) * (X * Y)) by nia.
  nia.
Qed.

Lemma i2l_flat_index x y z :
  in_padded_box g x y z -> i2l g (flat_index g x y z) = (x, y, z).
Proof.
  unfold in_padded_box, i2l, flat_index. intros (Bx & By & Bz).
  set (X := size_x g + 2) in *. set (Y := size_y g + 2) in *.
  assert (0 < X) by (unfold X; lia). assert (0 < Y) by (unfold Y; lia).
  assert (Hm : (x + y * X + z * X * Y) mod X = x).
  { replace (x + y * X + z * X * Y) with (x + (y + z * Y) * X) by ring.
    rewrite Z.mod_add by lia. apply Z.mod_small; lia. }
  assert (Hd : (x + y * X + z * X * Y) / X = y + z * Y).
  { replace (x + y * X + z * X * Y) with (x + (y + z * Y) * X) by ring.
    rewrite Z.div_add by lia. rewrite Z.div_small; lia. }
  assert (Hz : (x + y * X + z * X * Y) / (X * Y) = z).
  { replace (x + y * X + z * X * Y) with (x + y * X + z * (X * Y)) by ring.
    rewrite Z.div_add by nia. rewrite Z.div_small; [lia|]. nia. }
  rewrite Hm, Hd, Hz. rewrite Z.mod_add by lia.
  rewrite Z.mod_small by lia. reflexivity.
Qed.

Lemma flat_index_inj x y z x' y' z' :
  in_padded_box g x y z -> in_padded_box g x' y' z' ->
  flat_index g x y z = flat_index g x' y' z' ->
  (x, y, z) = (x', y', z').
Proof.
  intros Hb Hb' E.
  rewrite <- (i2l_flat_index x y z Hb), <- (i2l_flat_index x' y' z' Hb').
  now rewrite E.
Qed.

Lemma i2l_in_box i :
  0 <= i < padded_volume g ->
  let '(x, y, z) := i2l g i in
  in_padded_box g x y z /\ flat_index g x y z = i.
Proof.
  unfold padded_volume, i2l, in_padded_box, flat_index. intros Hi.
  set (X := size_x g + 2) in *. set (Y := size_y g + 2) in *.
  set (Zd := size_z g + 2) in *.
  assert (0 < X) by (unfold X; lia). assert (0 < Y) by (unfold Y; lia).
  assert (0 < Zd) by (unfold Zd; lia).
  assert (HXY : 0 < X * Y) by nia.
  pose proof (Z.mod_pos_bound i X ltac:(lia)) as Bx.
  pose proof (Z.mod_pos_bound (i / X) Y ltac:(lia)) as By.
  pose proof (Z.div_mod i X ltac:(lia)) as Ex.
  pose proof (Z.div_mod (i / X) Y ltac:(lia)) as Ey.
  assert (Ez : i / (X * Y) = i / X / Y) by (rewrite Z.div_div; lia).
  rewrite Ez.
  assert (0 <= i / X / Y < Zd).
  { split.
    - apply Z.div_pos; [apply Z.div_pos|]; lia.
    - rewrite Z.div_div by lia. apply Z.div_lt_upper_bound; lia. }
  repeat split; try lia.
Qed.

Lemma in_interior_box x y z : in_interior g x y z -> in_padded_box g x y z.
Proof. unfold in_interior, in_padded_box. lia. Qed.

Lemma interior_index_flat x y z :
  in_interior g x y z -> interior_index g (flat_index g x y z) = true.
Proof.
  intros Hi. unfold interior_index.
  pose proof (in_interior_box x y z Hi) as Hb.
  rewrite (i2l_flat_index x y z Hb).
  pose proof (flat_index_range x y z Hb) as Hr.
  unfold in_interior in Hi.
  repeat (apply andb_true_intro; split);
    first [apply Z.leb_le | apply Z.ltb_lt]; lia.
Qed.

Lemma interior_index_inv i :
  interior_index g i = true ->
  exists x y z, in_interior g x y z /\ i = flat_index g x y z.
Proof.
  unfold interior_index. intros H.
  destruct (i2l g i) as [[x y] z] eqn:E.
  repeat (apply andb_prop in H; destruct H as [H ?]).
  assert (Hi : 0 <= i < padded_volume g).
  { split; [apply Z.leb_le | apply Z.ltb_lt]; done. }
  pose proof (i2l_in_box i Hi) as Hd. rewrite E in Hd.
  exists x, y, z. split; [|symmetry; apply Hd].
  unfold in_interior.
  repeat match goal with
         | H : (_ <=? _) = true |- _ => apply Z.leb_le in H
         end.
  lia.
Qed.

End Decode.

Section PaddedBox.

Variable g : GrayScott.
Hypothesis Hfit : fits_int g.

Lemma l2i_flat_index x y z :
  in_padded_box g x y z -> l2i g x y z = flat_index g x y z.
Proof.
  intros Hb. rewrite l2i_to_int. apply to_int_small.
  destruct Hfit as (Hx & Hy & Hz & Hv).
  pose proof (flat_index_range g Hx Hy Hz x y z Hb) as Hr.
  unfold is_int. assert (0 < int_half) by reflexivity. lia.
Qed.

End PaddedBox.

(** The header's functions on the scenario rank (offset (4,0,4), extent
    4^3): a negative coordinate is outside, the first owned cell maps to the
    first interior cell (1,1,1) of the 6^3 padded box. *)
Example is_inside_scenario :
  is_inside scenario_rank 4 0 4 = true /\
  is_inside scenario_rank 7 3 7 = true /\
  is_inside scenario_rank 8 3 7 = false /\
  is_inside scenario_rank 3 0 4 = false /\
  is_inside scenario_rank (-1) 0 4 = false.
Proof. vm_compute. repeat split; reflexivity. Qed.

Example g2i_scenario :
  g2i scenario_rank 4 0 4 = 43 /\ l2i scenario_rank 1 1 1 = 43 /\
  g2i scenario_rank 7 3 7 = 172 /\ l2i scenario_rank 5 5 5 = 215.
Proof. vm_compute. repeat split; reflexivity. Qed.

(** C1 (as stated) fails: a single rank owning a 1300^3 cube has a padded
    box of 1302^3 cells, and the last padded cell does not get the index
    the formula gives, because the result is returned as an [int]. *)
Lemma l2i_formula_overflow :
  in_padded_box (cube 1300) 1301 1301 1301 /\
  l2i (cube 1300) 1301 1301 1301 = -2087811689 /\
  flat_index (cube 1300) 1301 1301 1301 = 2207155607 /\
  l2i (cube 1300) 1301 1301 1301 <>
    1301 + 1301 * (size_x (cube 1300) + 2)
         + 1301 * (size_x (cube 1300) + 2) * (size_y (cube 1300) + 2).
Proof. vm_compute. repeat split; intros; discriminate. Qed.

(** C1 (amended): for every rank whose padded box has at most 2^31 cells
    and every local coordinate (x,y,z) in that box, [l2i] returns
    x + y*(size_x+2) + z*(size_x+2)*(size_y+2). *)
Theorem l2i_formula (g : GrayScott) (x y z : Z) :
  fits_int g -> in_padded_box g x y z ->
  l2i g x y z = x + y * (size_x g + 2) + z * (size_x g + 2) * (size_y g + 2).
Proof. intros Hf Hb. now rewrite l2i_flat_index. Qed.

Lemma l2i_formula_witness :
  l2i (cube 8) 3 9 5 = 3 + 9 * (8 + 2) + 5 * (8 + 2) * (8 + 2).
Proof.
  apply (l2i_formula (cube 8) 3 9 5).
  - unfold fits_int. vm_compute. repeat split; discriminate.
  - unfold in_padded_box. simpl. lia.
Defined.

(** C2: [g2i] is [l2i] at the global coordinate shifted by the rank offset
    plus one ghost cell per axis.  The equation holds for every rank and
    every coordinate, so in particular inside the rank's interior region. *)
Theorem g2i_l2i_shift (g : GrayScott) (gx gy gz : Z) :
  g2i g gx gy gz =
  l2i g (gx - offset_x g + 1) (gy - offset_y g + 1) (gz - offset_z g + 1).
Proof.
  unfold g2i. apply l2i_congr;
    rewrite add32_mod32; apply add_congr32; try done;
    rewrite to_int_mod32, sub64_mod32; apply sub_congr32; try done;
    apply to_size_t_mod32.
Qed.

(** ** Bounds implied by [is_inside] *)

Lemma inside_axis off size u :
  is_size_t off -> is_size_t size -> is_size_t u ->
  (u <? off) = false -> (add64 off size <=? u) = false ->
  off <= u < off + size /\ off + size < size_t_mod.
Proof.
  unfold is_size_t, add64, to_size_t. intros Ho Hs Hu H1 H2.
  apply Z.ltb_ge in H1. apply Z.leb_gt in H2.
  destruct (Z_lt_ge_dec (off + size) size_t_mod) as [Hlt|Hge].
  - rewrite Z.mod_small in H2 by lia. lia.
  - exfalso.
    assert ((off + size) mod size_t_mod = off + size - size_t_mod) as E.
    { symmetry. apply Z.mod_unique with (q := 1); lia. }
    lia.
Qed.

Lemma is_inside_true g x y z :
  is_inside g x y z = true <->
  (to_size_t (to_int x) <? offset_x g) = false /\
  (add64 (offset_x g) (size_x g) <=? to_size_t (to_int x)) = false /\
  (to_size_t (to_int y) <? offset_y g) = false /\
  (add64 (offset_y g) (size_y g) <=? to_size_t (to_int y)) = false /\
  (to_size_t (to_int z) <? offset_z g) = false /\
  (add64 (offset_z g) (size_z g) <=? to_size_t (to_int z)) = false.
Proof.
  unfold is_inside. cbv zeta.
  repeat match goal with
         | |- context [if ?c then false else _] => destruct c
         end; intuition congruence.
Qed.

Lemma is_inside_bounds g x y z :
  wf_GrayScott g -> is_inside g x y z = true ->
  offset_x g <= to_size_t (to_int x) < offset_x g + size_x g /\
  offset_y g <= to_size_t (to_int y) < offset_y g + size_y g /\
  offset_z g <= to_size_t (to_int z) < offset_z g + size_z g.
Proof.
  intros (Hsx & Hsy & Hsz & Hox & Hoy & Hoz) H.
  apply is_inside_true in H. destruct H as (X1 & X2 & Y1 & Y2 & Z1 & Z2).
  pose proof (inside_axis _ _ _ Hox Hsx (to_size_t_range (to_int x)) X1 X2).
  pose proof (inside_axis _ _ _ Hoy Hsy (to_size_t_range (to_int y)) Y1 Y2).
  pose proof (inside_axis _ _ _ Hoz Hsz (to_size_t_range (to_int z)) Z1 Z2).
  lia.
Qed.

(** The conversion of the arguments is the identity on [int] values, and
    applying it twice changes nothing. *)
Lemma is_inside_narrow g x y z :
  is_inside g (to_int x) (to_int y) (to_int z) = is_inside g x y z.
Proof.
  unfold is_inside. cbv zeta.
  by rewrite !(to_int_small (to_int _)) by apply to_int_range.
Qed.

Lemma is_inside_intro g x y z :
  is_int x -> is_int y -> is_int z ->
  is_size_t x -> is_size_t y -> is_size_t z ->
  offset_x g <= x < offset_x g + size_x g ->
  offset_y g <= y < offset_y g + size_y g ->
  offset_z g <= z < offset_z g + size_z g ->
  offset_x g + size_x g < size_t_mod ->
  offset_y g + size_y g < size_t_mod ->
  offset_z g + size_z g < size_t_mod ->
  is_inside g x y z = true.
Proof.
  intros Ix Iy Iz Hx Hy Hz Bx By Bz Wx Wy Wz. apply is_inside_true.
  rewrite (to_int_small x Ix), (to_int_small y Iy), (to_int_small z Iz).
  unfold add64. unfold is_size_t in *.
  rewrite !to_size_t_small by (unfold is_size_t; lia).
  repeat split; first [apply Z.ltb_ge | apply Z.leb_gt]; lia.
Qed.

(** Under [is_inside], the local coordinate computed by [g2i] on one axis
    is the exact difference plus one and lies in the interior. *)
Lemma is_int_eq_mod a b :
  is_int a -> is_int b -> a mod int_mod = b mod int_mod -> a = b.
Proof.
  intros Ha Hb E. rewrite <- (to_int_small a Ha), <- (to_int_small b Hb).
  by apply to_int_congr.
Qed.

Lemma g2i_axis off size gx :
  is_size_t off -> 0 <= size -> size + 2 <= int_half ->
  off <= to_size_t (to_int gx) < off + size ->
  add32 (to_int (sub64 (to_size_t gx) off)) 1
  = to_size_t (to_int gx) - off + 1 /\
  1 <= to_size_t (to_int gx) - off + 1 <= size.
Proof.
  intros Ho Hs Hb Hr. split; [|lia].
  apply is_int_eq_mod.
  - apply to_int_range.
  - unfold is_int. lia.
  - rewrite add32_mod32. apply add_congr32; [|done].
    rewrite to_int_mod32, sub64_mod32. apply sub_congr32; [|done].
    by rewrite !to_size_t_mod32, to_int_mod32.
Qed.

Lemma fits_int_axes g :
  fits_int g ->
  size_x g + 2 <= int_half /\ size_y g + 2 <= int_half /\
  size_z g + 2 <= int_half.
Proof.
  unfold fits_int, padded_volume. intros (Hx & Hy & Hz & Hv).
  repeat split; nia.
Qed.

(** Under the guard, [g2i] is the flat index of the interior cell that
    stands for the global cell. *)
Lemma g2i_interior g gx gy gz :
  wf_GrayScott g -> fits_int g -> is_inside g gx gy gz = true ->
  in_interior g (to_size_t (to_int gx) - offset_x g + 1)
              (to_size_t (to_int gy) - offset_y g + 1)
              (to_size_t (to_int gz) - offset_z g + 1) /\
  g2i g gx gy gz =
  flat_index g (to_size_t (to_int gx) - offset_x g + 1)
             (to_size_t (to_int gy) - offset_y g + 1)
             (to_size_t (to_int gz) - offset_z g + 1).
Proof.
  intros Hwf Hfit Hin.
  pose proof (is_inside_bounds g gx gy gz Hwf Hin) as (Bx & By & Bz).
  pose proof (fits_int_axes g Hfit) as (Fx & Fy & Fz).
  destruct Hwf as (_ & _ & _ & Hox & Hoy & Hoz).
  pose proof Hfit as (Hsx & Hsy & Hsz & _).
  destruct (g2i_axis _ _ gx Hox Hsx Fx Bx) as (Ex & Rx).
  destruct (g2i_axis _ _ gy Hoy Hsy Fy By) as (Ey & Ry).
  destruct (g2i_axis _ _ gz Hoz Hsz Fz Bz) as (Ez & Rz).
  assert (Hi : in_interior g (to_size_t (to_int gx) - offset_x g + 1)
                 (to_size_t (to_int gy) - offset_y g + 1)
                 (to_size_t (to_int gz) - offset_z g + 1))
    by (unfold in_interior; lia).
  split; [exact Hi|].
  unfold g2i. cbv zeta. rewrite Ex, Ey, Ez.
  apply l2i_flat_index; [done|]. apply in_interior_box; done.
Qed.




(** C10 (as stated) fails: in the padded box of a single rank owning a
    1700^3 cube two distinct cells receive the same index, and in the box
    of a 1300^3 cube an index falls outside [0, volume). *)
Lemma l2i_not_bijective :
  in_padded_box (cube 1700) 0 0 0 /\
  in_padded_box (cube 1700) 932 1118 1482 /\
  (0, 0, 0) <> (932, 1118, 1482) /\
  l2i (cube 1700) 0 0 0 = l2i (cube 1700) 932 1118 1482 /\
  in_padded_box (cube 1300) 1301 1301 1301 /\
  ~ (0 <= l2i (cube 1300) 1301 1301 1301 < padded_volume (cube 1300)).
Proof.
  vm_compute. repeat split; try discriminate.
  intros [H _]. apply H. reflexivity.
Qed.

(** C10 (amended): for every rank whose padded box has at most 2^31
    cells, [l2i] is a bijection from the padded coordinate box onto
    [0, (size_x+2)(size_y+2)(size_z+2)). *)
Theorem l2i_bijection (g : GrayScott) :
  fits_int g ->
  (forall x y z, in_padded_box g x y z ->
                 0 <= l2i g x y z < padded_volume g) /\
  (forall x y z x' y' z',
      in_padded_box g x y z -> in_padded_box g x' y' z' ->
      l2i g x y z = l2i g x' y' z' -> (x, y, z) = (x', y', z')) /\
  (forall i, 0 <= i < padded_volume g ->
             exists x y z, in_padded_box g x y z /\ l2i g x y z = i).
Proof.
  intros Hfit. pose proof Hfit as (Hsx & Hsy & Hsz & _).
  repeat split.
  - rewrite l2i_flat_index by done. apply flat_index_range; done.
  - rewrite l2i_flat_index by done. apply flat_index_range; done.
  - intros x y z x' y' z' Hb Hb'.
    rewrite !l2i_flat_index by done. apply flat_index_inj; done.
  - intros i Hi. pose proof (i2l_in_box g Hsx Hsy Hsz i Hi) as Hd.
    destruct (i2l g i) as [[x y] z]. destruct Hd as (Hb & E).
    exists x, y, z. split; [done|]. rewrite l2i_flat_index; done.
Qed.

Lemma l2i_bijection_witness :
  (forall x y z, in_padded_box (cube 8) x y z ->
                 0 <= l2i (cube 8) x y z < padded_volume (cube 8)) /\
  (forall x y z x' y' z',
      in_padded_box (cube 8) x y z -> in_padded_box (cube 8) x' y' z' ->
      l2i (cube 8) x y z = l2i (cube 8) x' y' z' -> (x, y, z) = (x', y', z')) /\
  (forall i, 0 <= i < padded_volume (cube 8) ->
             exists x y z, in_padded_box (cube 8) x y z /\ l2i (cube 8) x y z = i).
Proof.
  apply (l2i_bijection (cube 8)).
  unfold fits_int. vm_compute. repeat split; discriminate.
Defined.

(** ** One axis of a decomposition *)

Section Axis.

Implicit Types (e : list Z) (i j : nat).

Lemma sum_extents_app e1 e2 :
  sum_extents (e1 ++ e2) = sum_extents e1 + sum_extents e2.
Proof. unfold sum_extents. induction e1; simpl; lia. Qed.

Lemma sum_extents_nonneg e : Forall (fun s => 0 <= s) e -> 0 <= sum_extents e.
Proof. unfold sum_extents. induction 1; simpl; lia. Qed.

Lemma prefix_offset_0 e : prefix_offset e 0 = 0.
Proof. unfold prefix_offset. by rewrite take_0. Qed.

Lemma prefix_offset_cons s e i :
  prefix_offset (s :: e) (S i) = s + prefix_offset e i.
Proof. reflexivity. Qed.

Lemma extent_at_cons s e i : extent_at (s :: e) (S i) = extent_at e i.
Proof. reflexivity. Qed.

Lemma prefix_offset_S e i :
  prefix_offset e (S i) = prefix_offset e i + extent_at e i.
Proof.
  revert i. induction e as [|s e IH]; intros i.
  - destruct i; reflexivity.
  - destruct i as [|i].
    + unfold prefix_offset, extent_at, sum_extents. simpl. lia.
    + rewrite !prefix_offset_cons, extent_at_cons, IH. lia.
Qed.

Lemma extent_at_nonneg e i : Forall (fun s => 0 <= s) e -> 0 <= extent_at e i.
Proof.
  intros H. unfold extent_at. destruct (e !! i) as [s|] eqn:E; simpl; [|lia].
  eapply Forall_lookup_1 in H; eauto.
Qed.

Lemma prefix_offset_mono e i j :
  Forall (fun s => 0 <= s) e -> (i <= j)%nat ->
  prefix_offset e i <= prefix_offset e j.
Proof.
  intros H. induction 1 as [|j Hle IH]; [lia|].
  rewrite prefix_offset_S. pose proof (extent_at_nonneg e j H). lia.
Qed.

Lemma prefix_offset_all e i :
  (length e <= i)%nat -> prefix_offset e i = sum_extents e.
Proof. intros H. unfold prefix_offset. by rewrite take_ge. Qed.

Lemma prefix_offset_bounds e i :
  Forall (fun s => 0 <= s) e ->
  0 <= prefix_offset e i /\
  prefix_offset e i + extent_at e i <= sum_extents e.
Proof.
  intros H. split.
  - rewrite <- (prefix_offset_0 e). apply prefix_offset_mono; [done|lia].
  - rewrite <- prefix_offset_S.
    rewrite <- (prefix_offset_all e (max (S i) (length e))) by lia.
    apply prefix_offset_mono; [done|lia].
Qed.

(** Every coordinate below the total is covered by some slab. *)
Lemma axis_cover e c :
  Forall (fun s => 0 <= s) e -> 0 <= c < sum_extents e ->
  exists i, (i < length e)%nat /\
            prefix_offset e i <= c < prefix_offset e i + extent_at e i.
Proof.
  intros H. revert c. induction H as [|s e Hs H IH]; intros c Hc.
  - unfold sum_extents in Hc. simpl in Hc. lia.
  - destruct (Z_lt_ge_dec c s) as [Hlt|Hge].
    + exists 0%nat. rewrite prefix_offset_0. unfold extent_at. simpl. lia.
    + destruct (IH (c - s)) as (i & Hi & Hr).
      { unfold sum_extents in *. simpl in Hc. lia. }
      exists (S i). rewrite prefix_offset_cons, extent_at_cons. simpl. lia.
Qed.

(** Two slabs that contain the same coordinate are the same slab. *)
Lemma axis_disjoint e c i j :
  Forall (fun s => 0 <= s) e ->
  prefix_offset e i <= c < prefix_offset e i + extent_at e i ->
  prefix_offset e j <= c < prefix_offset e j + extent_at e j ->
  i = j.
Proof.
  intros H Hi Hj.
  destruct (Nat.lt_trichotomy i j) as [Hlt|[->|Hlt]]; [exfalso| done |exfalso].
  - pose proof (prefix_offset_mono e (S i) j H ltac:(lia)) as Hm.
    rewrite prefix_offset_S in Hm. lia.
  - pose proof (prefix_offset_mono e (S j) i H ltac:(lia)) as Hm.
    rewrite prefix_offset_S in Hm. lia.
Qed.

End Axis.

(** ** Ranks of a valid decomposition *)

Section Decomposition.

Variables (L : Z) (ex ey ez : list Z).
Hypothesis Hvalid : valid_decomposition L ex ey ez.

Lemma rank_box_wf p : wf_GrayScott (rank_box ex ey ez p).
Proof.
  destruct Hvalid as (HL & (Nx & Sx) & (Ny & Sy) & (Nz & Sz)).
  destruct p as [[i j] k]. unfold wf_GrayScott, is_size_t in *. simpl.
  pose proof (prefix_offset_bounds ex i Nx).
  pose proof (prefix_offset_bounds ey j Ny).
  pose proof (prefix_offset_bounds ez k Nz).
  pose proof (extent_at_nonneg ex i Nx).
  pose proof (extent_at_nonneg ey j Ny).
  pose proof (extent_at_nonneg ez k Nz).
  lia.
Qed.

Lemma rank_box_inside i j k gx gy gz :
  is_int gx -> is_int gy -> is_int gz ->
  0 <= gx < L -> 0 <= gy < L -> 0 <= gz < L ->
  is_inside (rank_box ex ey ez (i, j, k)) gx gy gz = true <->
  prefix_offset ex i <= gx < prefix_offset ex i + extent_at ex i /\
  prefix_offset ey j <= gy < prefix_offset ey j + extent_at ey j /\
  prefix_offset ez k <= gz < prefix_offset ez k + extent_at ez k.
Proof.
  intros Ix Iy Iz Hx Hy Hz.
  pose proof Hvalid as (HL & (Nx & Sx) & (Ny & Sy) & (Nz & Sz)).
  unfold is_size_t in HL.
  split.
  - intros H. apply is_inside_bounds in H; [|apply rank_box_wf].
    simpl in H.
    rewrite (to_int_small gx Ix), (to_int_small gy Iy), (to_int_small gz Iz)
      in H.
    rewrite !to_size_t_small in H by (unfold is_size_t; lia). exact H.
  - intros (Bx & By & Bz).
    pose proof (prefix_offset_bounds ex i Nx).
    pose proof (prefix_offset_bounds ey j Ny).
    pose proof (prefix_offset_bounds ez k Nz).
    apply is_inside_intro; try done; simpl; unfold is_size_t; lia.
Qed.

Lemma all_ranks_spec p : p ∈ all_ranks ex ey ez <-> is_rank ex ey ez p.
Proof.
  destruct p as [[i j] k]. unfold all_ranks, is_rank.
  rewrite list_elem_of_bind. split.
  - intros (i' & H & Hi). apply list_elem_of_bind in H as (j' & H & Hj).
    apply list_elem_of_bind in H as (k' & H & Hk).
    apply list_elem_of_singleton in H. inversion H; subst.
    apply elem_of_seq in Hi, Hj, Hk. lia.
  - intros (Hi & Hj & Hk). exists i. split; [|apply elem_of_seq; lia].
    apply list_elem_of_bind. exists j. split; [|apply elem_of_seq; lia].
    apply list_elem_of_bind. exists k. split; [|apply elem_of_seq; lia].
    apply list_elem_of_singleton. done.
Qed.

Lemma all_ranks_NoDup : NoDup (all_ranks ex ey ez).
Proof.
  unfold all_ranks.
  apply NoDup_bind; [| |apply NoDup_seq].
  - intros i1 i2 p _ _ H1 H2.
    apply list_elem_of_bind in H1 as (j1 & H1 & _).
    apply list_elem_of_bind in H1 as (k1 & H1 & _).
    apply list_elem_of_bind in H2 as (j2 & H2 & _).
    apply list_elem_of_bind in H2 as (k2 & H2 & _).
    apply list_elem_of_singleton in H1, H2. congruence.
  - intros i _. apply NoDup_bind; [| |apply NoDup_seq].
    + intros j1 j2 p _ _ H1 H2.
      apply list_elem_of_bind in H1 as (k1 & H1 & _).
      apply list_elem_of_bind in H2 as (k2 & H2 & _).
      apply list_elem_of_singleton in H1, H2. congruence.
    + intros j _. apply NoDup_bind; [| |apply NoDup_seq].
      * intros k1 k2 p _ _ K1 K2.
        apply list_elem_of_singleton in K1, K2. congruence.
      * intros k _. apply NoDup_singleton.
Qed.

End Decomposition.

(** Validity of a decomposition given by explicit lists. *)
Ltac valid_by_computation :=
  unfold valid_decomposition, valid_axis, is_size_t;
  repeat split; try reflexivity; try discriminate;
  repeat constructor; discriminate.

Lemma filter_none {A} (P : A -> Prop) `{!forall x, Decision (P x)}
      (l : list A) :
  (forall q, q ∈ l -> ~ P q) -> filter P l = [].
Proof.
  induction l as [|x l IH]; intros Hn; [done|].
  rewrite filter_cons. destruct (decide (P x)) as [HPx|HPx].
  - exfalso. apply (Hn x); [left|done].
  - apply IH. intros q Hq. apply Hn. by right.
Qed.

Lemma filter_unique {A} (P : A -> Prop) `{!forall x, Decision (P x)}
      (l : list A) (p : A) :
  NoDup l -> p ∈ l -> P p -> (forall q, q ∈ l -> P q -> q = p) ->
  filter P l = [p].
Proof.
  induction 1 as [|x l Hx Hnd IH]; intros Hp HP Hu.
  - inversion Hp.
  - rewrite filter_cons. destruct (decide (P x)) as [HPx|HPx].
    + assert (x = p) as -> by (apply Hu; [left|done]).
      f_equal. apply filter_none. intros q Hq HPq.
      assert (q = p) as -> by (apply Hu; [by right|done]). done.
    + apply IH; [|done|].
      * apply elem_of_cons in Hp as [->|Hp]; done.
      * intros q Hq. apply Hu. by right.
Qed.

(** C3 (as stated) fails: one rank owning the whole cube of edge
    L = 2^31 + 1 is a valid decomposition and (2^31, 0, 0) is a global cell
    of [0,L)^3, but 2^31 is not an [int]: it reaches the [int] parameter of
    [is_inside] as -2^31, which converts to a [size_t] beyond
    [offset_x + size_x], and no rank accepts the cell. *)
Lemma cell_beyond_int_has_no_owner :
  valid_decomposition 2147483649 [2147483649] [2147483649] [2147483649] /\
  0 <= 2147483648 < 2147483649 /\
  owners [2147483649] [2147483649] [2147483649] 2147483648 0 0 = [] /\
  ~ (exists p,
        is_rank [2147483649] [2147483649] [2147483649] p /\
        is_inside (rank_box [2147483649] [2147483649] [2147483649] p)
                  2147483648 0 0 = true).
Proof.
  split; [valid_by_computation|]. split; [lia|]. split; [reflexivity|].
  intros ([[i j] k] & (Hi & Hj & Hk) & Hin). simpl in Hi, Hj, Hk.
  assert (i = 0%nat) as -> by lia.
  assert (j = 0%nat) as -> by lia.
  assert (k = 0%nat) as -> by lia.
  vm_compute in Hin. discriminate.
Qed.

(** C3 (amended): for every valid decomposition (per-axis extents that are
    non-negative and sum to L, offsets equal to the prefix sums of the
    preceding extents) and every global cell of [0,L)^3 whose coordinates
    are [int] values (every cell, when L <= 2^31), exactly one rank's
    [is_inside] returns true. *)
Theorem cell_has_unique_owner (L : Z) (ex ey ez : list Z) (gx gy gz : Z) :
  valid_decomposition L ex ey ez ->
  is_int gx -> is_int gy -> is_int gz ->
  0 <= gx < L -> 0 <= gy < L -> 0 <= gz < L ->
  exists p,
    is_rank ex ey ez p /\
    is_inside (rank_box ex ey ez p) gx gy gz = true /\
    (forall q, is_rank ex ey ez q ->
               is_inside (rank_box ex ey ez q) gx gy gz = true -> q = p) /\
    owners ex ey ez gx gy gz = [p].
Proof.
  intros Hv Ix Iy Iz Hx Hy Hz.
  pose proof Hv as (HL & (Nx & Sx) & (Ny & Sy) & (Nz & Sz)).
  destruct (axis_cover ex gx Nx ltac:(lia)) as (i & Hi & Bi).
  destruct (axis_cover ey gy Ny ltac:(lia)) as (j & Hj & Bj).
  destruct (axis_cover ez gz Nz ltac:(lia)) as (k & Hk & Bk).
  assert (Hin : is_inside (rank_box ex ey ez (i, j, k)) gx gy gz = true).
  { apply (rank_box_inside L); done. }
  assert (Hu : forall q, is_rank ex ey ez q ->
             is_inside (rank_box ex ey ez q) gx gy gz = true -> q = (i, j, k)).
  { intros [[i' j'] k'] _ Hq.
    apply (rank_box_inside L ex ey ez Hv) in Hq; [|done..].
    destruct Hq as (Bi' & Bj' & Bk').
    assert (i' = i) by exact (axis_disjoint ex gx i' i Nx Bi' Bi).
    assert (j' = j) by exact (axis_disjoint ey gy j' j Ny Bj' Bj).
    assert (k' = k) by exact (axis_disjoint ez gz k' k Nz Bk' Bk).
    congruence. }
  exists (i, j, k). split; [done|]. split; [done|]. split; [done|].
  unfold owners. apply filter_unique.
  - apply all_ranks_NoDup.
  - apply all_ranks_spec. done.
  - done.
  - intros q Hq. apply Hu. by apply all_ranks_spec.
Qed.

Lemma cell_has_unique_owner_witness :
  exists p,
    is_rank [4; 3; 3] [5; 5] [10] p /\
    is_inside (rank_box [4; 3; 3] [5; 5] [10] p) 4 9 0 = true /\
    (forall q, is_rank [4; 3; 3] [5; 5] [10] q ->
               is_inside (rank_box [4; 3; 3] [5; 5] [10] q) 4 9 0 = true ->
               q = p) /\
    owners [4; 3; 3] [5; 5] [10] 4 9 0 = [p].
Proof.
  apply (cell_has_unique_owner 10 [4; 3; 3] [5; 5] [10] 4 9 0); try lia.
  - valid_by_computation.
  - unfold is_int. vm_compute. repeat split; discriminate.
  - unfold is_int. vm_compute. repeat split; discriminate.
  - unfold is_int. vm_compute. repeat split; discriminate.
Defined.


(** ** Even division of an axis *)

Section EvenDivision.

Variables (L n : Z).
Hypothesis HL : 0 <= L.
Hypothesis Hn : 0 < n.

Lemma axis_extents_length : length (axis_extents L n) = Z.to_nat n.
Proof. unfold axis_extents. by rewrite length_fmap, length_seqZ. Qed.

Lemma axis_extents_at p :
  0 <= p < n -> extent_at (axis_extents L n) (Z.to_nat p) = axis_extent L n p.
Proof.
  intros Hp. unfold extent_at, axis_extents.
  rewrite list_lookup_fmap, lookup_seqZ_lt by lia. simpl. f_equal. lia.
Qed.

Lemma axis_extent_range p : L / n <= axis_extent L n p <= L / n + 1.
Proof. unfold axis_extent. destruct (p <? L mod n); lia. Qed.

Lemma axis_extent_nonneg p : 0 <= axis_extent L n p.
Proof.
  pose proof (axis_extent_range p). pose proof (Z.div_pos L n HL Hn). lia.
Qed.

Lemma axis_extent_mono p q :
  p <= q -> axis_extent L n q <= axis_extent L n p.
Proof.
  intros Hpq. unfold axis_extent.
  destruct (Z.ltb_spec p (L mod n)), (Z.ltb_spec q (L mod n)); lia.
Qed.

Lemma axis_extents_nonneg : Forall (fun s => 0 <= s) (axis_extents L n).
Proof.
  unfold axis_extents. apply Forall_fmap, Forall_forall.
  intros p _. apply axis_extent_nonneg.
Qed.

Lemma axis_offset_0 : axis_offset L n 0 = 0.
Proof. unfold axis_offset. apply prefix_offset_0. Qed.

Lemma axis_offset_succ p :
  0 <= p < n -> axis_offset L n (p + 1) = axis_offset L n p + axis_extent L n p.
Proof.
  intros Hp. unfold axis_offset.
  replace (Z.to_nat (p + 1)) with (S (Z.to_nat p)) by lia.
  rewrite prefix_offset_S, axis_extents_at; done.
Qed.

(** Closed form of the accumulated offset. *)
Lemma axis_offset_closed p :
  0 <= p <= n -> axis_offset L n p = p * (L / n) + Z.min p (L mod n).
Proof.
  intros [Hp0 Hpn]. revert Hpn. pattern p. apply natlike_ind; [| |exact Hp0].
  - intros _. rewrite axis_offset_0.
    pose proof (Z.mod_pos_bound L n Hn). lia.
  - intros q Hq IH Hle. unfold Z.succ.
    rewrite axis_offset_succ, IH by lia. unfold axis_extent.
    destruct (Z.ltb_spec q (L mod n)); lia.
Qed.

Lemma axis_extents_sum : sum_extents (axis_extents L n) = L.
Proof.
  rewrite <- (prefix_offset_all (axis_extents L n) (Z.to_nat n))
    by (rewrite axis_extents_length; lia).
  change (axis_offset L n n = L).
  rewrite axis_offset_closed by lia.
  pose proof (Z.mod_pos_bound L n Hn).
  pose proof (Z.div_mod L n ltac:(lia)). lia.
Qed.

Lemma axis_extents_valid : valid_axis L (axis_extents L n).
Proof. split; [apply axis_extents_nonneg | apply axis_extents_sum]. Qed.

End EvenDivision.

(** The boxes produced by [local_extents] over a topology form a valid
    decomposition: non-negative extents that sum to [L] on every axis. *)
Lemma local_extents_valid_decomposition L nx ny nz :
  is_size_t L -> 0 < nx -> 0 < ny -> 0 < nz ->
  valid_decomposition L (axis_extents L nx) (axis_extents L ny)
                      (axis_extents L nz).
Proof.
  intros HL Hx Hy Hz. pose proof HL as [HL0 _].
  repeat split; try apply HL;
    first [apply axis_extents_nonneg | apply axis_extents_sum]; done.
Qed.

Lemma local_extents_configured L c topo g :
  local_extents L c topo = Configured g ->
  forall a,
    size_of a g = axis_extent L (procs_of a g) (coord_of a g) /\
    offset_of a g = axis_offset L (procs_of a g) (coord_of a g) /\
    L >= procs_of a g.
Proof.
  destruct c as [[cx cy] cz], topo as [[nx ny] nz]. unfold local_extents.
  destruct (Z.ltb_spec L nx), (Z.ltb_spec L ny), (Z.ltb_spec L nz);
    simpl; try discriminate.
  intros [= <-] a. destruct a; simpl; repeat split; lia.
Qed.

Lemma local_extents_coords L c topo g :
  local_extents L c topo = Configured g ->
  (px g, py g, pz g) = c /\ (npx g, npy g, npz g) = topo.
Proof.
  destruct c as [[cx cy] cz], topo as [[nx ny] nz]. unfold local_extents.
  destruct (_ || _ || _); [discriminate|]. intros [= <-]. done.
Qed.

(** C7: along every axis, [local_extents] gives any two ranks extents
    that differ by at most 1, gives the larger extents to the lowest
    process coordinates (the first [L mod n] coordinates get one extra
    cell; L=10 over 3 processes gives 4,3,3), and places each rank at the
    sum of the extents of the lower coordinates: offset 0 at coordinate 0,
    the previous offset plus the previous extent at the next coordinate,
    and offset plus extent equal to L at the last coordinate. *)
Theorem local_extents_even (L : Z) (topo c c' : Z * Z * Z)
        (g g' : GrayScott) (a : Axis) :
  0 <= L -> in_topology c topo -> in_topology c' topo ->
  local_extents L c topo = Configured g ->
  local_extents L c' topo = Configured g' ->
  Z.abs (size_of a g - size_of a g') <= 1 /\
  (coord_of a g <= coord_of a g' -> size_of a g' <= size_of a g) /\
  size_of a g =
    L / procs_of a g + (if coord_of a g <? L mod procs_of a g then 1 else 0) /\
  offset_of a g =
    sum_extents (take (Z.to_nat (coord_of a g))
                      (axis_extents L (procs_of a g))) /\
  (coord_of a g = 0 -> offset_of a g = 0) /\
  (coord_of a g' = coord_of a g + 1 ->
   offset_of a g' = offset_of a g + size_of a g) /\
  (coord_of a g = procs_of a g - 1 -> offset_of a g + size_of a g = L) /\
  axis_extents 10 3 = [4; 3; 3].
Proof.
  intros HL Hc Hc' Hg Hg'.
  pose proof (local_extents_configured L c topo g Hg a) as (Hs & Ho & _).
  pose proof (local_extents_configured L c' topo g' Hg' a) as (Hs' & Ho' & _).
  pose proof (local_extents_coords L c topo g Hg) as (Ec & Et).
  pose proof (local_extents_coords L c' topo g' Hg') as (Ec' & Et').
  assert (Hn : procs_of a g' = procs_of a g).
  { rewrite <- Et' in Et. inversion Et. destruct a; simpl; congruence. }
  assert (Hr : 0 <= coord_of a g < procs_of a g).
  { destruct c as [[cx cy] cz], topo as [[nx ny] nz].
    inversion Ec; inversion Et; subst. destruct a; simpl in *; lia. }
  assert (Hr' : 0 <= coord_of a g' < procs_of a g).
  { destruct c' as [[cx cy] cz], topo as [[nx ny] nz].
    inversion Ec'; inversion Et; inversion Et'; subst.
    destruct a; simpl in *; lia. }
  rewrite Hn in Hs', Ho'.
  set (n := procs_of a g) in *. set (p := coord_of a g) in *.
  set (p' := coord_of a g') in *.
  assert (0 < n) by lia.
  pose proof (axis_extent_range L n p). pose proof (axis_extent_range L n p').
  repeat split.
  - rewrite Hs, Hs'. lia.
  - intros Hle. rewrite Hs, Hs'. apply axis_extent_mono; done.
  - exact Hs.
  - exact Ho.
  - intros E. rewrite Ho, E. apply axis_offset_0.
  - intros E. rewrite Ho', Ho, Hs, E. apply axis_offset_succ; lia.
  - intros E. rewrite Ho, Hs, <- axis_offset_succ by lia.
    rewrite axis_offset_closed by lia.
    pose proof (Z.mod_pos_bound L n ltac:(lia)).
    pose proof (Z.div_mod L n ltac:(lia)). lia.
Qed.

Lemma local_extents_even_witness :
  Z.abs (size_of AxisX (mkGrayScott 3 1 1 0 0 0 4 10 10 0 0 0)
         - size_of AxisX (mkGrayScott 3 1 1 1 0 0 3 10 10 4 0 0)) <= 1 /\
  axis_extents 10 3 = [4; 3; 3].
Proof.
  pose proof (local_extents_even 10 (3, 1, 1) (0, 0, 0) (1, 0, 0)
                (mkGrayScott 3 1 1 0 0 0 4 10 10 0 0 0)
                (mkGrayScott 3 1 1 1 0 0 3 10 10 4 0 0) AxisX) as H.
  destruct H as (Hb & _ & _ & _ & _ & _ & _ & Hex).
  - lia.
  - simpl. lia.
  - simpl. lia.
  - reflexivity.
  - reflexivity.
  - split; [exact Hb | exact Hex].
Defined.


(** ** Writers and readers of a step sequence *)

Section StepSequence.

Import Adios.

Context `{FloatBuffer elem}.

Lemma written_length (op : list elem -> list elem) count buf :
  length (written op count buf) = count.
Proof. revert buf. induction count; intros buf; simpl; auto. Qed.

Lemma kokkos_write_steps_spec count (w : Engine elem) buf :
  eng_mode elem w = Write ->
  let w' := KokkosWR.write_steps count w buf in
  eng_mode elem w' = Write /\ eng_name elem w' = eng_name elem w /\
  eng_steps elem w' = eng_steps elem w ++ written mgard count buf.
Proof.
  revert w buf. induction count as [|count IH]; intros w buf Hm; simpl.
  - by rewrite app_nil_r.
  - unfold BeginStep, EndStep, Put. rewrite Hm. simpl.
    match goal with
    | |- context [KokkosWR.write_steps count ?w1 ?b1] =>
        destruct (IH w1 b1 eq_refl) as (Em & En & Es)
    end.
    rewrite Em, En, Es. simpl. by rewrite <- app_assoc.
Qed.

Lemma hip_write_steps_spec hip count k (w : Engine elem) buf :
  (forall j, hipDeviceSynchronize_ok hip j = true) ->
  eng_mode elem w = Write ->
  exists w', HipWR.write_steps_hip hip count k w buf = Some w' /\
    eng_mode elem w' = Write /\ eng_name elem w' = eng_name elem w /\
    eng_steps elem w' = eng_steps elem w ++ written id count buf.
Proof.
  intros Hs. revert k w buf.
  induction count as [|count IH]; intros k w buf Hm; simpl.
  - exists w. by rewrite app_nil_r.
  - unfold BeginStep, EndStep, Put. rewrite Hm, Hs. simpl.
    match goal with
    | |- context [HipWR.write_steps_hip hip count ?k1 ?w1 ?b1] =>
        destruct (IH k1 w1 b1 eq_refl) as (w' & E & Em & En & Es)
    end.
    exists w'. rewrite E, Em, En, Es. simpl. by rewrite <- app_assoc.
Qed.






End StepSequence.



(** The two payloads a writer persists for N = 3 in two steps, and what
    the reader prints for them. *)
Example written_two_steps :
  written (H := Z_buffer) id 2 (init_buffer (H := Z_buffer) 3)
  = [[0; 1; 2]; [10; 11; 12]].
Proof. reflexivity. Qed.

(** ** Scattered writes into an array *)

Section Scatter.

Context {A C : Type} (idx : C -> nat) (w : C -> A).

Lemma scatter_cons d c cs :
  scatter idx w d (c :: cs) = scatter idx w (<[idx c := w c]> d) cs.
Proof. reflexivity. Qed.

Lemma scatter_length d cs : length (scatter idx w d cs) = length d.
Proof.
  revert d. induction cs as [|c cs IH]; intros d; [done|].
  rewrite scatter_cons, IH. apply length_insert.
Qed.

(** A position that no cell maps to keeps its value. *)
Lemma scatter_other d cs i :
  (forall c, c ∈ cs -> idx c <> i) -> scatter idx w d cs !! i = d !! i.
Proof.
  revert d. induction cs as [|c cs IH]; intros d Hne; [done|].
  rewrite scatter_cons, IH.
  - apply list_lookup_insert_ne. apply Hne. left.
  - intros c' Hc'. apply Hne. by right.
Qed.

Lemma scatter_hit_gen d cs c :
  (idx c < length d)%nat ->
  c ∈ cs \/ d !! idx c = Some (w c) ->
  (forall c', c' ∈ cs -> idx c' = idx c -> w c' = w c) ->
  scatter idx w d cs !! idx c = Some (w c).
Proof.
  revert d. induction cs as [|c0 cs IH]; intros d Hlen Hin Hw.
  - destruct Hin as [Hin|Hd]; [inversion Hin | exact Hd].
  - rewrite scatter_cons. apply IH.
    + by rewrite length_insert.
    + destruct (decide (idx c0 = idx c)) as [E|NE].
      * right. rewrite E, <- (Hw c0) by (done || left).
        by apply list_lookup_insert_eq.
      * destruct Hin as [Hin|Hd].
        -- apply elem_of_cons in Hin as [->|Hin]; [done | by left].
        -- right. by rewrite list_lookup_insert_ne.
    + intros c' Hc'. apply Hw. by right.
Qed.

(** A position some cell maps to holds that cell's value, provided the
    cells that share the position agree on the value. *)
Lemma scatter_hit d cs c :
  (idx c < length d)%nat -> c ∈ cs ->
  (forall c', c' ∈ cs -> idx c' = idx c -> w c' = w c) ->
  scatter idx w d cs !! idx c = Some (w c).
Proof. intros Hlen Hin. apply scatter_hit_gen; auto. Qed.

End Scatter.

(** ** Cells of the padded box *)

Section Cells.

Variable g : GrayScott.

Lemma interior_cells_spec x y z :
  (x, y, z) ∈ interior_cells g <-> in_interior g x y z.
Proof.
  unfold interior_cells, in_interior. rewrite list_elem_of_bind. split.
  - intros (z' & Hin & Hz). apply list_elem_of_bind in Hin as (y' & Hin & Hy).
    apply list_elem_of_bind in Hin as (x' & Hin & Hx).
    apply list_elem_of_singleton in Hin. inversion Hin; subst.
    apply elem_of_seqZ in Hx, Hy, Hz. lia.
  - intros (Hx & Hy & Hz). exists z. split; [|apply elem_of_seqZ; lia].
    apply list_elem_of_bind. exists y. split; [|apply elem_of_seqZ; lia].
    apply list_elem_of_bind. exists x. split; [|apply elem_of_seqZ; lia].
    by apply list_elem_of_singleton.
Qed.

Lemma cell_index_lt x y z :
  0 <= size_x g -> 0 <= size_y g -> 0 <= size_z g ->
  in_padded_box g x y z ->
  Z.of_nat (cell_index g (x, y, z)) = flat_index g x y z /\
  flat_index g x y z < padded_volume g.
Proof.
  intros Hx Hy Hz Hb. pose proof (flat_index_range g Hx Hy Hz x y z Hb).
  unfold cell_index. lia.
Qed.

Lemma cell_index_inj x y z x' y' z' :
  0 <= size_x g -> 0 <= size_y g -> 0 <= size_z g ->
  in_padded_box g x y z -> in_padded_box g x' y' z' ->
  cell_index g (x, y, z) = cell_index g (x', y', z') ->
  (x, y, z) = (x', y', z').
Proof.
  intros Hx Hy Hz Hb Hb' E.
  destruct (cell_index_lt x y z Hx Hy Hz Hb) as [E1 _].
  destruct (cell_index_lt x' y' z' Hx Hy Hz Hb') as [E2 _].
  apply (flat_index_inj g Hx Hy); try done. congruence.
Qed.

Lemma interior_sizes x y z :
  in_interior g x y z -> 0 <= size_x g /\ 0 <= size_y g /\ 0 <= size_z g.
Proof. unfold in_interior. lia. Qed.

(** Reading a buffer at a cell the scattered writes reached. *)
Lemma get_scatter (wv : Cell -> float) d x y z :
  Z.of_nat (length d) = padded_volume g ->
  in_interior g x y z ->
  get (scatter (cell_index g) wv d (interior_cells g)) g x y z = wv (x, y, z).
Proof.
  intros Hlen Hi. destruct (interior_sizes x y z Hi) as (Hx & Hy & Hz).
  pose proof (in_interior_box g x y z Hi) as Hb.
  destruct (cell_index_lt x y z Hx Hy Hz Hb) as [E Hlt].
  unfold get. rewrite scatter_hit; [done| lia | |].
  - by apply interior_cells_spec.
  - intros [[x' y'] z'] Hc' Ei. apply interior_cells_spec in Hc'.
    apply in_interior_box in Hc'.
    by rewrite (cell_index_inj x' y' z' x y z Hx Hy Hz Hc' Hb Ei).
Qed.

(** A position outside the interior is not reached by the writes. *)
Lemma scatter_ghost (wv : Cell -> float) d (i : nat) :
  interior_index g (Z.of_nat i) = false ->
  scatter (cell_index g) wv d (interior_cells g) !! i = d !! i.
Proof.
  intros Hg. apply scatter_other. intros [[x y] z] Hc Ei. subst i.
  apply interior_cells_spec in Hc.
  destruct (interior_sizes x y z Hc) as (Hx & Hy & Hz).
  pose proof (in_interior_box g x y z Hc) as Hb.
  destruct (cell_index_lt x y z Hx Hy Hz Hb) as [E _].
  rewrite E, (interior_index_flat g Hx Hy Hz x y z Hc) in Hg. discriminate.
Qed.

(** Within [int] range the position used for the buffers is the one the
    header's [l2i] returns. *)
Lemma cell_index_l2i x y z :
  fits_int g -> in_padded_box g x y z ->
  cell_index g (x, y, z) = Z.to_nat (l2i g x y z).
Proof. intros Hf Hb. unfold cell_index. by rewrite l2i_flat_index. Qed.

End Cells.

(** ** The sweep as scattered writes *)

Section Sweep.

Variables (st : Settings) (g : GrayScott).

Lemma foldl_calc_cell f cs :
  foldl (calc_cell st g) f cs =
  {| u := u f; v := v f;
     u2 := scatter (cell_index g) (next_u st g (u f) (v f)) (u2 f) cs;
     v2 := scatter (cell_index g) (next_v st g (u f) (v f)) (v2 f) cs |}.
Proof.
  revert f. induction cs as [|c cs IH]; intros f.
  - by destruct f.
  - simpl. rewrite IH. reflexivity.
Qed.

Lemma calc_unfold f :
  calc st g f =
  {| u := scatter (cell_index g) (next_u st g (u f) (v f)) (u2 f)
                  (interior_cells g);
     v := scatter (cell_index g) (next_v st g (u f) (v f)) (v2 f)
                  (interior_cells g);
     u2 := u f; v2 := v f |}.
Proof. unfold calc, sweep. by rewrite foldl_calc_cell. Qed.

End Sweep.

(** ** Zeros in [double] arithmetic *)

Section FloatZeros.

Local Open Scope float_scope.

Lemma mul_finite_zeroish a z :
  finite_double a = true -> zeroish z -> zeroish (a * z).
Proof.
  unfold finite_double, zeroish. intros Ha Hz.
  pose proof (mul_spec a z) as Hm.
  assert (Hzs : exists s, Prim2SF z = S754_zero s).
  { destruct Hz as [->| ->]; eexists; reflexivity. }
  destruct Hzs as [s Hs]. rewrite Hs in Hm.
  assert (Hr : exists b, Prim2SF (a * z) = S754_zero b).
  { destruct (Prim2SF a) as [sa|sa| |sa m e]; try discriminate;
      rewrite Hm; eexists; reflexivity. }
  destruct Hr as [[|] Hb]; [right | left]; apply Prim2SF_inj; rewrite Hb;
    reflexivity.
Qed.

Lemma add_zeroish a b : zeroish a -> zeroish b -> zeroish (a + b).
Proof.
  intros [->| ->] [->| ->]; unfold zeroish;
    first [left; reflexivity | right; reflexivity].
Qed.

Lemma zeroish_add_zero a : zeroish a -> a + 0 = 0.
Proof. intros [->| ->]; reflexivity. Qed.

Lemma zero_add_zeroish a : zeroish a -> 0 + a = 0.
Proof. intros [->| ->]; reflexivity. Qed.

Lemma zero_sub_zeroish a : zeroish a -> 0 - a = 0.
Proof. intros [->| ->]; reflexivity. Qed.

Lemma one_add_zeroish a : zeroish a -> 1 + a = 1.
Proof. intros [->| ->]; reflexivity. Qed.

Lemma zeroish_zero : zeroish 0.
Proof. by left. Qed.

Lemma zeroish_neg_zero : zeroish (-0).
Proof. by right. Qed.

(** The stencil of a field that is 1 everywhere, and of one that is 0
    everywhere. *)
Lemma stencil_ones : 1 + 1 + 1 + 1 + 1 + 1 - 6 * 1 = 0.
Proof. reflexivity. Qed.

Lemma stencil_zeros : 0 + 0 + 0 + 0 + 0 + 0 - 6 * 0 = 0.
Proof. reflexivity. Qed.

Lemma next_u_fixed st :
  finite_double (Du st) = true -> finite_double (F st) = true ->
  finite_double (dt st) = true ->
  1 + dt st * (Du st * 0 + (- (1) * 0 * 0 + F st * (1 - 1))) = 1.
Proof.
  intros HDu HF Hdt.
  apply one_add_zeroish, mul_finite_zeroish; [done|].
  apply add_zeroish.
  - apply mul_finite_zeroish; [done | apply zeroish_zero].
  - apply add_zeroish; [apply zeroish_neg_zero|].
    apply mul_finite_zeroish; [done | apply zeroish_zero].
Qed.

Lemma next_v_fixed st :
  finite_double (Dv st) = true -> finite_double (F st + k st) = true ->
  finite_double (dt st) = true ->
  0 + dt st * (Dv st * 0 + (1 * 0 * 0 - (F st + k st) * 0)) = 0.
Proof.
  intros HDv HFk Hdt.
  apply zero_add_zeroish, mul_finite_zeroish; [done|].
  change (1 * 0 * 0) with 0.
  rewrite zero_sub_zeroish
    by (apply mul_finite_zeroish; [done | apply zeroish_zero]).
  rewrite zeroish_add_zero
    by (apply mul_finite_zeroish; [done | apply zeroish_zero]).
  apply zeroish_zero.
Qed.

End FloatZeros.

(** ** The stepper on interior and ghost cells *)

Lemma neighbours_in_box g x y z :
  in_interior g x y z ->
  in_padded_box g x y z /\
  in_padded_box g (x - 1) y z /\ in_padded_box g (x + 1) y z /\
  in_padded_box g x (y - 1) z /\ in_padded_box g x (y + 1) z /\
  in_padded_box g x y (z - 1) /\ in_padded_box g x y (z + 1).
Proof. unfold in_interior, in_padded_box. lia. Qed.

(** C4: for every interior cell one invocation of the stepper produces
    U' = U + dt*(Du*lap(U) + R_u) and V' = V + dt*(Dv*lap(V) + R_v), with
    lap the 7-point stencil (centre -6, each face neighbour +1), R_u =
    -U*V^2 + F*(1-U) and R_v = U*V^2 - (F+k)*V, all read from the current
    buffers; with U=1 and V=0 everywhere (and finite parameters) every
    interior cell keeps U=1 and V=0. *)
Theorem calc_interior_update (st : Settings) (g : GrayScott) (f : Fields)
        (x y z : Z) :
  fields_sized g f -> in_interior g x y z ->
  let U := get (u f) g in
  let V := get (v f) g in
  let lapU := (U (x - 1)%Z y z + U (x + 1)%Z y z
               + U x (y - 1)%Z z + U x (y + 1)%Z z
               + U x y (z - 1)%Z + U x y (z + 1)%Z - 6 * U x y z)%float in
  let lapV := (V (x - 1)%Z y z + V (x + 1)%Z y z
               + V x (y - 1)%Z z + V x (y + 1)%Z z
               + V x y (z - 1)%Z + V x y (z + 1)%Z - 6 * V x y z)%float in
  let Ru := (- U x y z * V x y z * V x y z + F st * (1 - U x y z))%float in
  let Rv := (U x y z * V x y z * V x y z - (F st + k st) * V x y z)%float in
  get (u (calc st g f)) g x y z = (U x y z + dt st * (Du st * lapU + Ru))%float
  /\
  get (v (calc st g f)) g x y z = (V x y z + dt st * (Dv st * lapV + Rv))%float
  /\
  (uniform g f 1 0 ->
   finite_double (Du st) = true -> finite_double (Dv st) = true ->
   finite_double (F st) = true -> finite_double (F st + k st) = true ->
   finite_double (dt st) = true ->
   get (u (calc st g f)) g x y z = 1%float /\
   get (v (calc st g f)) g x y z = 0%float).
Proof.
  intros (Lu & Lv & Lu2 & Lv2) Hi U V lapU lapV Ru Rv.
  rewrite calc_unfold. simpl.
  rewrite !get_scatter by done.
  assert (Eu : next_u st g (u f) (v f) (x, y, z)
               = (U x y z + dt st * (Du st * lapU + Ru))%float) by reflexivity.
  assert (Ev : next_v st g (u f) (v f) (x, y, z)
               = (V x y z + dt st * (Dv st * lapV + Rv))%float) by reflexivity.
  split; [exact Eu|]. split; [exact Ev|].
  intros Hun HDu HDv HF HFk Hdt.
  destruct (neighbours_in_box g x y z Hi)
    as (B0 & B1 & B2 & B3 & B4 & B5 & B6).
  rewrite Eu, Ev. subst lapU lapV Ru Rv U V. cbv beta.
  rewrite !(proj1 (Hun _ _ _ B0)), !(proj2 (Hun _ _ _ B0)),
    !(proj1 (Hun _ _ _ B1)), !(proj2 (Hun _ _ _ B1)),
    !(proj1 (Hun _ _ _ B2)), !(proj2 (Hun _ _ _ B2)),
    !(proj1 (Hun _ _ _ B3)), !(proj2 (Hun _ _ _ B3)),
    !(proj1 (Hun _ _ _ B4)), !(proj2 (Hun _ _ _ B4)),
    !(proj1 (Hun _ _ _ B5)), !(proj2 (Hun _ _ _ B5)),
    !(proj1 (Hun _ _ _ B6)), !(proj2 (Hun _ _ _ B6)).
  rewrite stencil_ones, stencil_zeros.
  split; [apply next_u_fixed | apply next_v_fixed]; done.
Qed.

(** C6: one stepper invocation leaves every ghost cell unchanged.  The
    sweep leaves the current buffers of U and V as they were, in every cell;
    in the next buffers it writes interior positions only, so every ghost
    position keeps its value; the interior values it produces do not depend
    on what the next buffers held, so no cell of a next buffer is read; and
    the swap comes after the whole sweep: the stepper returns the swept
    next buffers as current and the untouched current buffers as next. *)
Theorem calc_frame (st : Settings) (g : GrayScott) (f : Fields) :
  fields_sized g f ->
  (u (sweep st g f) = u f /\ v (sweep st g f) = v f) /\
  (forall i : nat, interior_index g (Z.of_nat i) = false ->
     u2 (sweep st g f) !! i = u2 f !! i /\
     v2 (sweep st g f) !! i = v2 f !! i) /\
  (forall f', fields_sized g f' -> u f' = u f -> v f' = v f ->
     forall x y z, in_interior g x y z ->
       get (u2 (sweep st g f')) g x y z = get (u2 (sweep st g f)) g x y z /\
       get (v2 (sweep st g f')) g x y z = get (v2 (sweep st g f)) g x y z) /\
  calc st g f =
    {| u := u2 (sweep st g f); v := v2 (sweep st g f);
       u2 := u f; v2 := v f |}.
Proof.
  intros (Lu & Lv & Lu2 & Lv2). unfold calc, sweep.
  rewrite foldl_calc_cell. simpl. split; [done|]. split; [|split; [|done]].
  - intros i Hg. split; apply scatter_ghost; done.
  - intros f' (Lu' & Lv' & Lu2' & Lv2') Eu Ev x y z Hi.
    rewrite foldl_calc_cell. simpl. rewrite !get_scatter by done.
    by rewrite Eu, Ev.
Qed.

Lemma get_replicate g n a x y z :
  0 <= size_x g -> 0 <= size_y g -> 0 <= size_z g ->
  Z.of_nat n = padded_volume g -> in_padded_box g x y z ->
  get (replicate n a) g x y z = a.
Proof.
  intros Hx Hy Hz Hn Hb.
  destruct (cell_index_lt g x y z Hx Hy Hz Hb) as [E Hlt].
  unfold get. rewrite lookup_replicate_2; [done | lia].
Qed.

Lemma padded_volume_nonneg g :
  0 <= size_x g -> 0 <= size_y g -> 0 <= size_z g -> 0 <= padded_volume g.
Proof. unfold padded_volume. nia. Qed.

Lemma uniform_fields_sized g a b :
  0 <= size_x g -> 0 <= size_y g -> 0 <= size_z g ->
  fields_sized g (uniform_fields g a b).
Proof.
  intros Hx Hy Hz. pose proof (padded_volume_nonneg g Hx Hy Hz).
  unfold fields_sized, uniform_fields. simpl.
  rewrite !length_replicate. lia.
Qed.

Lemma uniform_fields_uniform g a b :
  0 <= size_x g -> 0 <= size_y g -> 0 <= size_z g ->
  uniform g (uniform_fields g a b) a b.
Proof.
  intros Hx Hy Hz x y z Hb. pose proof (padded_volume_nonneg g Hx Hy Hz).
  unfold uniform_fields. simpl.
  split; apply get_replicate; try done; lia.
Qed.

Lemma calc_interior_update_witness :
  get (u (calc scenario_settings scenario_rank
               (uniform_fields scenario_rank 1 0))) scenario_rank 2 3 4
  = 1%float /\
  get (v (calc scenario_settings scenario_rank
               (uniform_fields scenario_rank 1 0))) scenario_rank 2 3 4
  = 0%float.
Proof.
  destruct (calc_interior_update scenario_settings scenario_rank
              (uniform_fields scenario_rank 1 0) 2 3 4) as (_ & _ & Hfix).
  - apply uniform_fields_sized; simpl; lia.
  - unfold in_interior. simpl. lia.
  - apply Hfix; try (vm_compute; reflexivity).
    apply uniform_fields_uniform; simpl; lia.
Defined.

Lemma calc_frame_witness :
  u (sweep scenario_settings (cube 2) (uniform_fields (cube 2) 1 0))
  = u (uniform_fields (cube 2) 1 0) /\
  u2 (sweep scenario_settings (cube 2) (uniform_fields (cube 2) 1 0)) !! 0%nat
  = u2 (uniform_fields (cube 2) 1 0) !! 0%nat.
Proof.
  destruct (calc_frame scenario_settings (cube 2)
              (uniform_fields (cube 2) 1 0)) as ((Hc & _) & Hg & _).
  - apply uniform_fields_sized; simpl; lia.
  - split; [exact Hc|]. apply (Hg 0%nat). vm_compute. reflexivity.
Defined.

(** The scenario run on one 2^3 rank: the interior stays at U = 1, V = 0,
    and the ghost layer of the buffer that becomes current is the zero
    layer the next buffer had. *)
Example scenario_step_cube2 :
  get (u (calc scenario_settings (cube 2) (uniform_fields (cube 2) 1 0)))
      (cube 2) 1 2 1 = 1%float /\
  get (u (calc scenario_settings (cube 2) (uniform_fields (cube 2) 1 0)))
      (cube 2) 0 2 1 = 0%float.
Proof. vm_compute. split; reflexivity. Qed.

(** ** Scattered writes into a map *)

Section GScatter.

Context {A C : Type} `{Countable K} (key : C -> K) (w : C -> A).

Lemma gscatter_cons (m : gmap K A) c cs :
  gscatter key w m (c :: cs) = gscatter key w (<[key c := w c]> m) cs.
Proof. reflexivity. Qed.

Lemma gscatter_app (m : gmap K A) cs1 cs2 :
  gscatter key w m (cs1 ++ cs2) = gscatter key w (gscatter key w m cs1) cs2.
Proof. apply foldl_app. Qed.

Lemma gscatter_hit_gen (m : gmap K A) cs c :
  c ∈ cs \/ m !! key c = Some (w c) ->
  (forall c', c' ∈ cs -> key c' = key c -> w c' = w c) ->
  gscatter key w m cs !! key c = Some (w c).
Proof.
  revert m. induction cs as [|c0 cs IH]; intros m Hin Hw.
  - destruct Hin as [Hin|Hm]; [inversion Hin | exact Hm].
  - rewrite gscatter_cons. apply IH.
    + destruct (decide (key c0 = key c)) as [E|NE].
      * right. rewrite E, <- (Hw c0) by (done || left).
        apply lookup_insert_eq.
      * destruct Hin as [Hin|Hm].
        -- apply elem_of_cons in Hin as [->|Hin]; [done | by left].
        -- right. by rewrite lookup_insert_ne.
    + intros c' Hc'. apply Hw. by right.
Qed.

Lemma gscatter_hit (m : gmap K A) cs c :
  c ∈ cs ->
  (forall c', c' ∈ cs -> key c' = key c -> w c' = w c) ->
  gscatter key w m cs !! key c = Some (w c).
Proof. intros Hin. apply gscatter_hit_gen. by left. Qed.

End GScatter.

Lemma gscatter_fmap {A C D : Type} `{Countable K} (key : C -> K) (w : C -> A)
      (h : D -> C) (m : gmap K A) (ds : list D) :
  gscatter key w m (h <$> ds) = gscatter (key ∘ h) (w ∘ h) m ds.
Proof. unfold gscatter. by rewrite foldl_fmap. Qed.

Lemma foldl_zip_fmap {A B C : Type} (h : A -> C * B -> A) (fv : C -> B)
      (a : A) (l : list C) :
  foldl h a (zip l (fv <$> l)) = foldl (fun a c => h a (c, fv c)) a l.
Proof. revert a. induction l as [|c l IH]; intros a; simpl; auto. Qed.

Lemma mapM_total {A B : Type} (fo : A -> option B) (fv : A -> B) (l : list A) :
  (forall x, x ∈ l -> fo x = Some (fv x)) -> mapM fo l = Some (fv <$> l).
Proof.
  intros Hall. apply mapM_Some_2.
  induction l as [|x l IH]; simpl; constructor.
  - apply Hall. left.
  - apply IH. intros y Hy. apply Hall. by right.
Qed.

(** ** The checkpoint as scattered writes *)

Lemma write_selection_noghost g d arr :
  write_selection g (data_noghost g d) arr =
  gscatter (global_of g) (get_cell d g) arr (interior_cells g).
Proof.
  unfold write_selection, data_noghost.
  rewrite (foldl_zip_fmap
             (fun a (cv : Z * Z * Z * float) => <[global_of g cv.1 := cv.2]> a)).
  reflexivity.
Qed.

Lemma data_ghost_fmap g (fv : Z * Z * Z -> float) :
  data_ghost g (fv <$> interior_cells g) =
  scatter (cell_index g) fv (replicate (Z.to_nat (padded_volume g)) 0%float)
          (interior_cells g).
Proof.
  unfold data_ghost.
  rewrite (foldl_zip_fmap
             (fun d (cv : Z * Z * Z * float) => <[cell_index g cv.1 := cv.2]> d)).
  reflexivity.
Qed.

Section CheckpointAll.

Variables (ex ey ez : list Z) (fields : nat * nat * nat -> Fields).

Let box := rank_box ex ey ez.
Let key_of (pc : nat * nat * nat * (Z * Z * Z)) := global_of (box pc.1) pc.2.
Let u_of (pc : nat * nat * nat * (Z * Z * Z)) :=
  get_cell (u (fields pc.1)) (box pc.1) pc.2.
Let v_of (pc : nat * nat * nat * (Z * Z * Z)) :=
  get_cell (v (fields pc.1)) (box pc.1) pc.2.

Lemma checkpoint_fold ck ranks :
  foldl (fun ck p => checkpoint (box p) (fields p) ck) ck ranks =
  {| ckpt_u := gscatter key_of u_of (ckpt_u ck)
                 (p ← ranks; (fun c => (p, c)) <$> interior_cells (box p));
     ckpt_v := gscatter key_of v_of (ckpt_v ck)
                 (p ← ranks; (fun c => (p, c)) <$> interior_cells (box p)) |}.
Proof.
  revert ck. induction ranks as [|p ranks IH]; intros ck.
  - by destruct ck.
  - simpl. rewrite IH. unfold checkpoint at 1 2, u_noghost, v_noghost. simpl.
    rewrite !write_selection_noghost, !gscatter_app, !gscatter_fmap.
    reflexivity.
Qed.

Lemma checkpoint_all_unfold :
  checkpoint_all ex ey ez fields =
  {| ckpt_u := gscatter key_of u_of ∅ (all_cells ex ey ez);
     ckpt_v := gscatter key_of v_of ∅ (all_cells ex ey ez) |}.
Proof. unfold checkpoint_all. apply checkpoint_fold. Qed.

Lemma all_cells_spec p x y z :
  (p, (x, y, z)) ∈ all_cells ex ey ez <->
  p ∈ all_ranks ex ey ez /\ in_interior (box p) x y z.
Proof.
  unfold all_cells. rewrite list_elem_of_bind. split.
  - intros (p' & Hin & Hp). apply list_elem_of_fmap in Hin as (c & E & Hc).
    inversion E; subst. split; [done|]. by apply interior_cells_spec.
  - intros (Hp & Hi). exists p. split; [|done].
    apply list_elem_of_fmap. exists (x, y, z). split; [done|].
    by apply interior_cells_spec.
Qed.

End CheckpointAll.

(** ** Global cells of a decomposition *)

Section GlobalCells.

Variables (L : Z) (ex ey ez : list Z).
Hypothesis Hvalid : valid_decomposition L ex ey ez.

Lemma interior_global_range p x y z :
  in_interior (rank_box ex ey ez p) x y z ->
  let '(gx, gy, gz) := global_of (rank_box ex ey ez p) (x, y, z) in
  0 <= gx < L /\ 0 <= gy < L /\ 0 <= gz < L.
Proof.
  destruct Hvalid as (_ & (Nx & Sx) & (Ny & Sy) & (Nz & Sz)).
  destruct p as [[i j] k]. unfold in_interior. simpl. intros Hi.
  pose proof (prefix_offset_bounds ex i Nx).
  pose proof (prefix_offset_bounds ey j Ny).
  pose proof (prefix_offset_bounds ez k Nz).
  lia.
Qed.

Lemma global_cell_owner gx gy gz :
  0 <= gx < L -> 0 <= gy < L -> 0 <= gz < L ->
  exists p x y z,
    is_rank ex ey ez p /\ in_interior (rank_box ex ey ez p) x y z /\
    global_of (rank_box ex ey ez p) (x, y, z) = (gx, gy, gz).
Proof.
  intros Hx Hy Hz.
  destruct Hvalid as (_ & (Nx & Sx) & (Ny & Sy) & (Nz & Sz)).
  destruct (axis_cover ex gx Nx ltac:(lia)) as (i & Hi & Bi).
  destruct (axis_cover ey gy Ny ltac:(lia)) as (j & Hj & Bj).
  destruct (axis_cover ez gz Nz ltac:(lia)) as (k & Hk & Bk).
  exists (i, j, k), (gx - prefix_offset ex i + 1),
         (gy - prefix_offset ey j + 1), (gz - prefix_offset ez k + 1).
  split; [done|]. unfold in_interior. simpl. split; [lia|].
  f_equal; [f_equal|]; lia.
Qed.

Lemma same_global_same_cell p p' x y z x' y' z' :
  in_interior (rank_box ex ey ez p) x y z ->
  in_interior (rank_box ex ey ez p') x' y' z' ->
  global_of (rank_box ex ey ez p) (x, y, z) =
  global_of (rank_box ex ey ez p') (x', y', z') ->
  p = p' /\ (x, y, z) = (x', y', z').
Proof.
  destruct Hvalid as (_ & (Nx & Sx) & (Ny & Sy) & (Nz & Sz)).
  destruct p as [[i j] k], p' as [[i' j'] k'].
  unfold in_interior. simpl. intros Hi Hi' E. inversion E.
  assert (i = i').
  { apply (axis_disjoint ex (prefix_offset ex i + x - 1) i i' Nx); lia. }
  assert (j = j').
  { apply (axis_disjoint ey (prefix_offset ey j + y - 1) j j' Ny); lia. }
  assert (k = k').
  { apply (axis_disjoint ez (prefix_offset ez k + z - 1) k k' Nz); lia. }
  subst. split; [done|]. f_equal; [f_equal|]; lia.
Qed.

(** What the checkpoint of all ranks holds for the global cell of an
    interior cell of any rank. *)
Lemma checkpoint_all_lookup fields p x y z :
  is_rank ex ey ez p -> in_interior (rank_box ex ey ez p) x y z ->
  ckpt_u (checkpoint_all ex ey ez fields)
    !! global_of (rank_box ex ey ez p) (x, y, z)
  = Some (get (u (fields p)) (rank_box ex ey ez p) x y z) /\
  ckpt_v (checkpoint_all ex ey ez fields)
    !! global_of (rank_box ex ey ez p) (x, y, z)
  = Some (get (v (fields p)) (rank_box ex ey ez p) x y z).
Proof.
  intros Hp Hi. rewrite checkpoint_all_unfold. simpl.
  assert (Hin : (p, (x, y, z)) ∈ all_cells ex ey ez).
  { apply all_cells_spec. split; [|done]. by apply all_ranks_spec. }
  split.
  - apply (gscatter_hit
             (fun pc : nat * nat * nat * (Z * Z * Z) =>
                global_of (rank_box ex ey ez pc.1) pc.2)
             (fun pc : nat * nat * nat * (Z * Z * Z) =>
                get_cell (u (fields pc.1)) (rank_box ex ey ez pc.1) pc.2)
             ∅ (all_cells ex ey ez) (p, (x, y, z)) Hin).
    intros [p' [[x' y'] z']] Hin' E. simpl in *.
    apply all_cells_spec in Hin' as [_ Hi'].
    destruct (same_global_same_cell p' p x' y' z' x y z Hi' Hi E) as [-> Ec].
    by inversion Ec.
  - apply (gscatter_hit
             (fun pc : nat * nat * nat * (Z * Z * Z) =>
                global_of (rank_box ex ey ez pc.1) pc.2)
             (fun pc : nat * nat * nat * (Z * Z * Z) =>
                get_cell (v (fields pc.1)) (rank_box ex ey ez pc.1) pc.2)
             ∅ (all_cells ex ey ez) (p, (x, y, z)) Hin).
    intros [p' [[x' y'] z']] Hin' E. simpl in *.
    apply all_cells_spec in Hin' as [_ Hi'].
    destruct (same_global_same_cell p' p x' y' z' x y z Hi' Hi E) as [-> Ec].
    by inversion Ec.
Qed.

End GlobalCells.

(** ** Restoring from a checkpoint *)

Section Restore.

Variables (L : Z) (exA eyA ezA exB eyB ezB : list Z).
Variable fields : nat * nat * nat -> Fields.
Hypothesis HA : valid_decomposition L exA eyA ezA.
Hypothesis HB : valid_decomposition L exB eyB ezB.

Let ck := checkpoint_all exA eyA ezA fields.

(** Every cell of a selection of the reading decomposition was written by
    its owner in the writing decomposition. *)
Lemma selection_written q x y z :
  in_interior (rank_box exB eyB ezB q) x y z ->
  exists p x' y' z',
    is_rank exA eyA ezA p /\ in_interior (rank_box exA eyA ezA p) x' y' z' /\
    global_of (rank_box exA eyA ezA p) (x', y', z') =
    global_of (rank_box exB eyB ezB q) (x, y, z).
Proof.
  intros Hi.
  pose proof (interior_global_range L exB eyB ezB HB q x y z Hi) as Hr.
  destruct (global_of (rank_box exB eyB ezB q) (x, y, z)) as [[gx gy] gz].
  destruct Hr as (Hx & Hy & Hz).
  apply (global_cell_owner L exA eyA ezA HA gx gy gz Hx Hy Hz).
Qed.

Lemma selection_lookup q x y z :
  in_interior (rank_box exB eyB ezB q) x y z ->
  is_Some (ckpt_u ck !! global_of (rank_box exB eyB ezB q) (x, y, z)) /\
  is_Some (ckpt_v ck !! global_of (rank_box exB eyB ezB q) (x, y, z)).
Proof.
  intros Hi. destruct (selection_written q x y z Hi)
    as (p & x' & y' & z' & Hp & Hi' & E).
  destruct (checkpoint_all_lookup L exA eyA ezA HA fields p x' y' z' Hp Hi')
    as [Eu Ev].
  rewrite <- E. unfold ck. rewrite Eu, Ev. split; eauto.
Qed.

Lemma read_selection_total q :
  read_selection (rank_box exB eyB ezB q) (ckpt_u ck) =
    Some ((fun c => default 0%float
                      (ckpt_u ck !! global_of (rank_box exB eyB ezB q) c))
            <$> interior_cells (rank_box exB eyB ezB q)) /\
  read_selection (rank_box exB eyB ezB q) (ckpt_v ck) =
    Some ((fun c => default 0%float
                      (ckpt_v ck !! global_of (rank_box exB eyB ezB q) c))
            <$> interior_cells (rank_box exB eyB ezB q)).
Proof.
  unfold read_selection. split; apply mapM_total; intros [[x y] z] Hc;
    apply interior_cells_spec in Hc;
    destruct (selection_lookup q x y z Hc) as [[a Ha] [b Hb]];
    rewrite ?Ha, ?Hb; reflexivity.
Qed.

Lemma rank_box_sizes q :
  0 <= size_x (rank_box exB eyB ezB q) /\
  0 <= size_y (rank_box exB eyB ezB q) /\
  0 <= size_z (rank_box exB eyB ezB q).
Proof.
  destruct HB as (_ & (Nx & _) & (Ny & _) & (Nz & _)).
  destruct q as [[i j] k]. simpl.
  repeat split; apply extent_at_nonneg; done.
Qed.

End Restore.

(** C5: checkpoint followed by restore is a round trip on the interior.
    All ranks of a decomposition A write their ghost-stripped U and V
    under their global selections; a rank [q] of a decomposition B of the
    same global shape (the same one or another) reads its selection back.
    The read succeeds, every interior cell of [q] is the global cell of an
    interior cell of a rank of A, and it gets exactly the value that this
    rank held there before the checkpoint; when B is A this is the rank's
    own pre-checkpoint value.  Ghost cells are not part of the round trip:
    they come back as zero. *)
Theorem checkpoint_restore_roundtrip (L : Z)
        (exA eyA ezA exB eyB ezB : list Z)
        (fields : nat * nat * nat -> Fields) (q : nat * nat * nat)
        (f0 : Fields) :
  valid_decomposition L exA eyA ezA -> valid_decomposition L exB eyB ezB ->
  is_rank exB eyB ezB q ->
  let gA := rank_box exA eyA ezA in
  let gB := rank_box exB eyB ezB q in
  exists f',
    restore (checkpoint_all exA eyA ezA fields) gB f0 = Some f' /\
    (forall x y z, in_interior gB x y z ->
       exists p x' y' z',
         is_rank exA eyA ezA p /\ in_interior (gA p) x' y' z' /\
         global_of (gA p) (x', y', z') = global_of gB (x, y, z)) /\
    (forall p x y z x' y' z',
       is_rank exA eyA ezA p ->
       in_interior gB x y z -> in_interior (gA p) x' y' z' ->
       global_of (gA p) (x', y', z') = global_of gB (x, y, z) ->
       get (u f') gB x y z = get (u (fields p)) (gA p) x' y' z' /\
       get (v f') gB x y z = get (v (fields p)) (gA p) x' y' z') /\
    ((exB, eyB, ezB) = (exA, eyA, ezA) ->
     forall x y z, in_interior gB x y z ->
       get (u f') gB x y z = get (u (fields q)) gB x y z /\
       get (v f') gB x y z = get (v (fields q)) gB x y z) /\
    (forall i : nat,
       interior_index gB (Z.of_nat i) = false ->
       Z.of_nat i < padded_volume gB ->
       u f' !! i = Some 0%float /\ v f' !! i = Some 0%float).
Proof.
  intros HA HB Hq gA gB.
  destruct (read_selection_total L exA eyA ezA exB eyB ezB fields HA HB q)
    as [Ru Rv].
  destruct (rank_box_sizes L exB eyB ezB HB q) as (Sx & Sy & Sz).
  fold gB in Ru, Rv, Sx, Sy, Sz.
  pose proof (padded_volume_nonneg gB Sx Sy Sz) as Hvol.
  eexists. split.
  { unfold restore. rewrite Ru, Rv. simpl. reflexivity. }
  unfold restart. simpl. rewrite !data_ghost_fmap.
  assert (Hlen : Z.of_nat (length (replicate (Z.to_nat (padded_volume gB))
                                             0%float)) = padded_volume gB).
  { rewrite length_replicate. lia. }
  assert (Hval : forall p x y z x' y' z',
       is_rank exA eyA ezA p ->
       in_interior gB x y z -> in_interior (gA p) x' y' z' ->
       global_of (gA p) (x', y', z') = global_of gB (x, y, z) ->
       get (scatter (cell_index gB)
              (fun c => default 0%float
                 (ckpt_u (checkpoint_all exA eyA ezA fields) !! global_of gB c))
              (replicate (Z.to_nat (padded_volume gB)) 0%float)
              (interior_cells gB)) gB x y z
       = get (u (fields p)) (gA p) x' y' z' /\
       get (scatter (cell_index gB)
              (fun c => default 0%float
                 (ckpt_v (checkpoint_all exA eyA ezA fields) !! global_of gB c))
              (replicate (Z.to_nat (padded_volume gB)) 0%float)
              (interior_cells gB)) gB x y z
       = get (v (fields p)) (gA p) x' y' z').
  { intros p x y z x' y' z' Hp Hi Hi' E.
    rewrite !get_scatter by done. rewrite <- E.
    destruct (checkpoint_all_lookup L exA eyA ezA HA fields p x' y' z' Hp Hi')
      as [Eu Ev].
    fold (gA p) in Eu, Ev. rewrite Eu, Ev. done. }
  split; [|split; [|split]].
  - intros x y z Hi.
    apply (selection_written L exA eyA ezA exB eyB ezB HA HB q x y z Hi).
  - exact Hval.
  - intros E x y z Hi. inversion E; subst exB eyB ezB.
    apply (Hval q x y z x y z); done.
  - intros i Hg Hi.
    rewrite !scatter_ghost by done.
    rewrite !lookup_replicate_2 by lia. done.
Qed.

Lemma checkpoint_restore_roundtrip_witness :
  exists f',
    restore (checkpoint_all [2] [2] [2] (fun _ => ramp_fields 64))
            (rank_box [1; 1] [2] [2] (1%nat, 0%nat, 0%nat))
            (ramp_fields 48) = Some f' /\
    get (u f') (rank_box [1; 1] [2] [2] (1%nat, 0%nat, 0%nat)) 1 2 1
    = get (u (ramp_fields 64)) (rank_box [2] [2] [2] (0%nat, 0%nat, 0%nat))
          2 2 1.
Proof.
  destruct (checkpoint_restore_roundtrip 2 [2] [2] [2] [1; 1] [2] [2]
              (fun _ => ramp_fields 64) (1%nat, 0%nat, 0%nat)
              (ramp_fields 48)) as (f' & Hr & _ & Hval & _).
  - valid_by_computation.
  - valid_by_computation.
  - unfold is_rank. simpl. lia.
  - exists f'. split; [exact Hr|].
    apply (Hval (0%nat, 0%nat, 0%nat) 1 2 1 2 2 1).
    + unfold is_rank. simpl. lia.
    + vm_compute. repeat split; discriminate.
    + vm_compute. repeat split; discriminate.
    + reflexivity.
Defined.

(** The same round trip computed: one rank writes a 2^3 domain, the second
    of two ranks splitting the x axis reads its half back. *)
Example roundtrip_two_ranks :
  (fun f' => (get (u f') (rank_box [1; 1] [2] [2] (1%nat, 0%nat, 0%nat)) 1 2 1,
              get (v f') (rank_box [1; 1] [2] [2] (1%nat, 0%nat, 0%nat)) 1 2 1,
              get (u f') (rank_box [1; 1] [2] [2] (1%nat, 0%nat, 0%nat)) 0 2 1))
    <$> restore (checkpoint_all [2] [2] [2] (fun _ => ramp_fields 64))
                (rank_box [1; 1] [2] [2] (1%nat, 0%nat, 0%nat))
                (ramp_fields 48)
  = Some (get (u (ramp_fields 64)) (cube 2) 2 2 1,
          get (v (ramp_fields 64)) (cube 2) 2 2 1,
          0%float).
Proof. vm_compute. reflexivity. Qed.

(** * Further properties of the header's index functions *)

Lemma to_size_t_int v :
  is_int v -> to_size_t v = if v <? 0 then v + size_t_mod else v.
Proof.
  unfold is_int, to_size_t. intros Hv.
  assert (int_half < size_t_mod) by reflexivity.
  destruct (Z.ltb_spec v 0).
  - symmetry. apply Z.mod_unique with (q := -1); lia.
  - apply Z.mod_small. lia.
Qed.

Lemma inside_axis_int off size v :
  is_size_t off -> is_size_t size -> is_int v ->
  off + size <= size_t_mod - int_half ->
  (off <= to_size_t v < off + size <-> off <= v < off + size).
Proof.
  intros Ho Hs Hv Hb. rewrite (to_size_t_int v Hv).
  unfold is_size_t, is_int in *.
  destruct (Z.ltb_spec v 0); lia.
Qed.

(** [is_inside] in terms of the converted coordinates, when no
    [offset + size] wraps. *)
Lemma is_inside_size_t (g : GrayScott) (x y z : Z) :
  wf_GrayScott g ->
  offset_x g + size_x g < size_t_mod ->
  offset_y g + size_y g < size_t_mod ->
  offset_z g + size_z g < size_t_mod ->
  (is_inside g x y z = true <->
   offset_x g <= to_size_t (to_int x) < offset_x g + size_x g /\
   offset_y g <= to_size_t (to_int y) < offset_y g + size_y g /\
   offset_z g <= to_size_t (to_int z) < offset_z g + size_z g).
Proof.
  intros Hwf Wx Wy Wz.
  pose proof Hwf as (Sx & Sy & Sz & Ox & Oy & Oz).
  split.
  - apply is_inside_bounds; done.
  - intros (Bx & By & Bz). apply is_inside_true.
    unfold add64. unfold is_size_t in *.
    rewrite !(to_size_t_small (_ + _)) by (unfold is_size_t; lia).
    repeat split; first [apply Z.ltb_ge | apply Z.leb_gt]; lia.
Qed.

(** X1: [is_inside] decides membership in the half-open box
    [offset, offset + size) on every axis, for [int] coordinates; in
    particular every negative coordinate is rejected. *)
Theorem is_inside_iff (g : GrayScott) (x y z : Z) :
  wf_GrayScott g -> box_below_wrap g ->
  is_int x -> is_int y -> is_int z ->
  (is_inside g x y z = true <->
   offset_x g <= x < offset_x g + size_x g /\
   offset_y g <= y < offset_y g + size_y g /\
   offset_z g <= z < offset_z g + size_z g).
Proof.
  intros Hwf (Wx & Wy & Wz) Hx Hy Hz.
  pose proof Hwf as (Sx & Sy & Sz & Ox & Oy & Oz).
  assert (0 < int_half) by reflexivity.
  rewrite <- (inside_axis_int _ _ x Ox Sx Hx Wx).
  rewrite <- (inside_axis_int _ _ y Oy Sy Hy Wy).
  rewrite <- (inside_axis_int _ _ z Oz Sz Hz Wz).
  pose proof (is_inside_size_t g x y z Hwf ltac:(lia) ltac:(lia) ltac:(lia))
    as E.
  rewrite (to_int_small x Hx), (to_int_small y Hy), (to_int_small z Hz) in E.
  exact E.
Qed.

Lemma is_inside_iff_witness :
  is_inside scenario_rank (-1) 0 4 = true <->
  offset_x scenario_rank <= -1 < offset_x scenario_rank + size_x scenario_rank
  /\ offset_y scenario_rank <= 0
                            < offset_y scenario_rank + size_y scenario_rank
  /\ offset_z scenario_rank <= 4
                            < offset_z scenario_rank + size_z scenario_rank.
Proof.
  apply (is_inside_iff scenario_rank (-1) 0 4).
  - unfold wf_GrayScott, is_size_t. vm_compute. repeat split; discriminate.
  - unfold box_below_wrap. vm_compute. repeat split; discriminate.
  - unfold is_int. vm_compute. repeat split; discriminate.
  - unfold is_int. vm_compute. repeat split; discriminate.
  - unfold is_int. vm_compute. repeat split; discriminate.
Defined.

(** X2: a rank with an empty extent on some axis owns no cell:
    [is_inside] is false for every coordinate. *)
Theorem is_inside_empty_extent (g : GrayScott) (x y z : Z) :
  wf_GrayScott g ->
  size_x g = 0 \/ size_y g = 0 \/ size_z g = 0 ->
  is_inside g x y z = false.
Proof.
  intros Hwf He. destruct (is_inside g x y z) eqn:E; [|done].
  apply (is_inside_bounds g x y z Hwf) in E. lia.
Qed.

Lemma is_inside_empty_extent_witness :
  is_inside (mkGrayScott 1 1 1 0 0 0 4 0 4 0 0 0) 1 0 1 = false.
Proof.
  apply (is_inside_empty_extent (mkGrayScott 1 1 1 0 0 0 4 0 4 0 0 0) 1 0 1).
  - unfold wf_GrayScott, is_size_t. vm_compute. repeat split; discriminate.
  - right. left. reflexivity.
Defined.

Lemma to_size_t_int_inj v v' :
  is_int v -> is_int v' -> to_size_t v = to_size_t v' -> v = v'.
Proof.
  intros Hv Hv'. rewrite (to_size_t_int v Hv), (to_size_t_int v' Hv').
  unfold is_int in *. assert (int_half + int_half < size_t_mod) by reflexivity.
  destruct (Z.ltb_spec v 0), (Z.ltb_spec v' 0); lia.
Qed.

(** X3: under the [is_inside] guard [g2i] never aliases: two different
    global cells of a rank (whose padded box fits an [int]) get different
    flat indices. *)
Theorem g2i_guarded_injective (g : GrayScott) (gx gy gz gx' gy' gz' : Z) :
  wf_GrayScott g -> fits_int g ->
  is_int gx -> is_int gy -> is_int gz ->
  is_int gx' -> is_int gy' -> is_int gz' ->
  is_inside g gx gy gz = true -> is_inside g gx' gy' gz' = true ->
  g2i g gx gy gz = g2i g gx' gy' gz' ->
  (gx, gy, gz) = (gx', gy', gz').
Proof.
  intros Hwf Hfit Hx Hy Hz Hx' Hy' Hz' Hin Hin' E.
  destruct (g2i_interior g gx gy gz Hwf Hfit Hin) as (Hi & E1).
  destruct (g2i_interior g gx' gy' gz' Hwf Hfit Hin') as (Hi' & E2).
  pose proof Hfit as (Sx & Sy & Sz & _).
  rewrite E1, E2 in E.
  pose proof (in_interior_box g _ _ _ Hi) as Hb.
  pose proof (in_interior_box g _ _ _ Hi') as Hb'.
  pose proof (flat_index_inj g Sx Sy _ _ _ _ _ _ Hb Hb' E) as Ec.
  rewrite (to_int_small gx Hx), (to_int_small gy Hy), (to_int_small gz Hz),
    (to_int_small gx' Hx'), (to_int_small gy' Hy'), (to_int_small gz' Hz')
    in Ec.
  inversion Ec.
  f_equal; [f_equal|]; apply to_size_t_int_inj; try done; lia.
Qed.

Lemma g2i_guarded_injective_witness :
  (g2i scenario_rank 5 1 6 =? g2i scenario_rank 4 1 6) = false.
Proof.
  destruct (Z.eqb_spec (g2i scenario_rank 5 1 6) (g2i scenario_rank 4 1 6))
    as [E|_]; [|reflexivity].
  apply (g2i_guarded_injective scenario_rank 5 1 6 4 1 6) in E;
    first [ discriminate E
          | vm_compute; reflexivity
          | unfold wf_GrayScott, fits_int, is_size_t, is_int; vm_compute;
            repeat split; discriminate ].
Defined.

(** ** The halo around a rank's region *)

(** The local coordinate computed by [g2i] on one axis, for a global
    coordinate at most one cell outside the rank's slab. *)
Lemma g2i_axis_halo off size gx :
  0 <= size -> size + 2 <= int_half ->
  off - 1 <= gx <= off + size ->
  add32 (to_int (sub64 (to_size_t gx) off)) 1 = gx - off + 1.
Proof.
  intros Hs Hb Hr. apply is_int_eq_mod.
  - apply to_int_range.
  - unfold is_int. lia.
  - rewrite add32_mod32. apply add_congr32; [|done].
    rewrite to_int_mod32, sub64_mod32. apply sub_congr32; [|done].
    apply to_size_t_mod32.
Qed.

Lemma interior_index_box g x y z :
  0 <= size_x g -> 0 <= size_y g -> 0 <= size_z g ->
  in_padded_box g x y z ->
  (interior_index g (flat_index g x y z) = true <-> in_interior g x y z).
Proof.
  intros Sx Sy Sz Hb. split.
  - intros H. destruct (interior_index_inv g Sx Sy Sz _ H)
      as (x' & y' & z' & Hi & E).
    apply (flat_index_inj g Sx Sy) in E;
      [| done | by apply in_interior_box].
    by inversion E; subst.
  - apply interior_index_flat; done.
Qed.

(** X4: on a rank's region extended by one cell in every direction, [g2i]
    is the flat index of the padded cell at (gx - offset_x + 1, ...): it is
    a valid index of the padded buffer, and it addresses an interior cell
    exactly when [is_inside] accepts the coordinate, a ghost cell
    otherwise. *)
Theorem g2i_halo (g : GrayScott) (gx gy gz : Z) :
  wf_GrayScott g -> fits_int g ->
  is_int gx -> is_int gy -> is_int gz ->
  offset_x g - 1 <= gx <= offset_x g + size_x g ->
  offset_y g - 1 <= gy <= offset_y g + size_y g ->
  offset_z g - 1 <= gz <= offset_z g + size_z g ->
  g2i g gx gy gz =
    flat_index g (gx - offset_x g + 1) (gy - offset_y g + 1)
               (gz - offset_z g + 1) /\
  0 <= g2i g gx gy gz < padded_volume g /\
  interior_index g (g2i g gx gy gz) = is_inside g gx gy gz.
Proof.
  intros Hwf Hfit Ix Iy Iz Rx Ry Rz.
  pose proof (fits_int_axes g Hfit) as (Fx & Fy & Fz).
  pose proof Hfit as (Sx & Sy & Sz & _).
  assert (Hb : in_padded_box g (gx - offset_x g + 1) (gy - offset_y g + 1)
                 (gz - offset_z g + 1)) by (unfold in_padded_box; lia).
  assert (E : g2i g gx gy gz =
              flat_index g (gx - offset_x g + 1) (gy - offset_y g + 1)
                         (gz - offset_z g + 1)).
  { unfold g2i. cbv zeta.
    rewrite (g2i_axis_halo _ _ gx Sx Fx Rx), (g2i_axis_halo _ _ gy Sy Fy Ry),
      (g2i_axis_halo _ _ gz Sz Fz Rz).
    apply l2i_flat_index; done. }
  split; [exact E|]. rewrite E. split.
  - apply flat_index_range; done.
  - assert (Hw : box_below_wrap g).
    { unfold box_below_wrap, is_int in *.
      assert (int_half + int_half + int_half <= size_t_mod)
        by (vm_compute; discriminate).
      lia. }
    destruct Hw as (Wx & Wy & Wz).
    pose proof Hwf as (Zx & Zy & Zz & Ox & Oy & Oz).
    assert (0 < int_half) by reflexivity.
    pose proof (is_inside_size_t g gx gy gz Hwf ltac:(lia) ltac:(lia)
                  ltac:(lia)) as Hin.
    rewrite (to_int_small gx Ix), (to_int_small gy Iy), (to_int_small gz Iz)
      in Hin.
    rewrite (inside_axis_int _ _ gx Ox Zx Ix Wx) in Hin.
    rewrite (inside_axis_int _ _ gy Oy Zy Iy Wy) in Hin.
    rewrite (inside_axis_int _ _ gz Oz Zz Iz Wz) in Hin.
    pose proof (interior_index_box g _ _ _ Sx Sy Sz Hb) as Hint.
    unfold in_interior in Hint.
    destruct (interior_index g _), (is_inside g gx gy gz); try done.
    + exfalso. assert (true = true) as T by done.
      apply Hint in T. destruct Hin as [_ Hin].
      assert (false = true); [apply Hin; lia | discriminate].
    + exfalso. assert (true = true) as T by done.
      apply Hin in T. destruct Hint as [_ Hint].
      assert (false = true); [apply Hint; lia | discriminate].
Qed.

Lemma g2i_halo_witness :
  g2i scenario_rank 3 (-1) 8 =
    flat_index scenario_rank (3 - offset_x scenario_rank + 1)
               (-1 - offset_y scenario_rank + 1)
               (8 - offset_z scenario_rank + 1) /\
  0 <= g2i scenario_rank 3 (-1) 8 < padded_volume scenario_rank /\
  interior_index scenario_rank (g2i scenario_rank 3 (-1) 8)
  = is_inside scenario_rank 3 (-1) 8.
Proof.
  apply (g2i_halo scenario_rank 3 (-1) 8);
    unfold wf_GrayScott, fits_int, is_size_t, is_int; vm_compute;
    repeat split; discriminate.
Defined.

(** The west and south-most halo cell of the scenario rank is the first
    cell of the padded buffer; [is_inside] rejects it. *)
Example g2i_halo_corner :
  g2i scenario_rank 3 (-1) 3 = 0 /\ is_inside scenario_rank 3 (-1) 3 = false.
Proof. vm_compute. split; reflexivity. Qed.

(** X5: the six face neighbours of an interior cell, as the stencil reads
    them, sit at the fixed index offsets +-1, +-(size_x+2) and
    +-(size_x+2)*(size_y+2) from the cell, and all are valid indices of the
    padded buffer. *)
Theorem l2i_stencil_offsets (g : GrayScott) (x y z : Z) :
  fits_int g -> in_interior g x y z ->
  let c := l2i g x y z in
  let sy := size_x g + 2 in
  let sz := (size_x g + 2) * (size_y g + 2) in
  l2i g (x - 1) y z = c - 1 /\ l2i g (x + 1) y z = c + 1 /\
  l2i g x (y - 1) z = c - sy /\ l2i g x (y + 1) z = c + sy /\
  l2i g x y (z - 1) = c - sz /\ l2i g x y (z + 1) = c + sz /\
  0 <= c - sz /\ c + sz < padded_volume g.
Proof.
  intros Hfit Hi c sy sz. subst c sy sz.
  destruct (neighbours_in_box g x y z Hi)
    as (B0 & B1 & B2 & B3 & B4 & B5 & B6).
  pose proof Hfit as (Sx & Sy & Sz & _).
  pose proof (flat_index_range g Sx Sy Sz _ _ _ B5) as R5.
  pose proof (flat_index_range g Sx Sy Sz _ _ _ B6) as R6.
  rewrite !l2i_flat_index by done.
  unfold flat_index in *. repeat split; lia.
Qed.

Lemma l2i_stencil_offsets_witness :
  l2i scenario_rank 1 4 2 = l2i scenario_rank 2 4 2 - 1 /\
  l2i scenario_rank 2 4 3 = l2i scenario_rank 2 4 2 + 36.
Proof.
  destruct (l2i_stencil_offsets scenario_rank 2 4 2)
    as (H1 & _ & _ & _ & _ & H6 & _).
  - unfold fits_int. vm_compute. repeat split; discriminate.
  - unfold in_interior. vm_compute. repeat split; discriminate.
  - split; [exact H1 | exact H6].
Defined.

(** X6: [l2i] does no bounds check.  A coordinate one row length past the
    row addresses the same entry as the start of the next row, and one
    plane past the plane the same entry as the next plane; this holds for
    every rank and every coordinate. *)
Theorem l2i_row_wrap (g : GrayScott) (x y z : Z) :
  l2i g (x + (size_x g + 2)) y z = l2i g x (y + 1) z /\
  l2i g x (y + (size_y g + 2)) z = l2i g x y (z + 1).
Proof.
  rewrite !l2i_to_int. unfold flat_index. split; f_equal; ring.
Qed.

(** * Further properties of the write/read drivers *)

(** ** The kernels *)

Section Kernels.

Context `{FloatBuffer elem}.

Lemma launch_S blocks (body : nat -> list elem -> list elem) vec :
  launch (S blocks) body vec = body blocks (launch blocks body vec).
Proof. unfold launch. by rewrite seq_S, foldl_app. Qed.

Lemma launch_increment_length blocks (vec : list elem) :
  length (launch blocks hip_increment vec) = length vec.
Proof.
  induction blocks as [|n IH]; [done|].
  rewrite launch_S. unfold hip_increment. by rewrite length_alter.
Qed.

Lemma launch_increment_lookup blocks (vec : list elem) i :
  launch blocks hip_increment vec !! i =
  if decide (i < blocks)%nat then plus10 <$> vec !! i else vec !! i.
Proof.
  induction blocks as [|n IH]; [done|].
  rewrite launch_S. unfold hip_increment at 1.
  destruct (decide (n = i)) as [->|Hne].
  - rewrite list_lookup_alter_eq, IH.
    destruct (decide (i < i)%nat); [lia|].
    destruct (decide (i < S i)%nat); [done | lia].
  - rewrite list_lookup_alter_ne by done. rewrite IH.
    destruct (decide (i < n)%nat), (decide (i < S n)%nat); (done || lia).
Qed.

End Kernels.

(** X7: launched with one block per entry, [hip_initialize] turns any
    buffer of N entries, whatever it held, into the buffer whose entry i is
    i. *)
Theorem launch_hip_initialize `{FloatBuffer elem} (vec : list elem) :
  launch (length vec) hip_initialize vec
  = init_buffer (Z.of_nat (length vec)).
Proof.
  assert (E : launch (length vec) hip_initialize vec =
              scatter (fun b : nat => b) (fun b => of_index (Z.of_nat b)) vec
                      (seq 0 (length vec))) by reflexivity.
  rewrite E. apply list_eq. intros i. unfold init_buffer.
  rewrite list_lookup_fmap.
  destruct (decide (i < length vec)%nat) as [Hlt|Hge].
  - rewrite (scatter_hit (fun b : nat => b)
               (fun b => of_index (Z.of_nat b)) vec _ i Hlt).
    + rewrite lookup_seqZ_lt by lia. done.
    + apply elem_of_seq. lia.
    + intros c' _ ->. done.
  - rewrite lookup_ge_None_2 by (rewrite scatter_length; lia).
    rewrite lookup_seqZ_ge by lia. done.
Qed.

(** X8: launched with one block per entry, [hip_increment] applies the
    [+= 10] update to every entry of the buffer, once. *)
Theorem launch_hip_increment `{FloatBuffer elem} (vec : list elem) :
  launch (length vec) hip_increment vec = plus10 <$> vec.
Proof.
  apply list_eq. intros i.
  rewrite launch_increment_lookup, list_lookup_fmap.
  destruct (decide (i < length vec)%nat) as [Hlt|Hge]; [done|].
  rewrite lookup_ge_None_2 by lia. done.
Qed.

(** The two kernels on a three-entry buffer of integers. *)
Example kernels_on_three :
  launch 3 (hip_initialize (H := Z_buffer)) [7; 7; 7] = [0; 1; 2] /\
  launch 3 (hip_increment (H := Z_buffer)) [0; 1; 2] = [10; 11; 12].
Proof. split; reflexivity. Qed.

(** ** Readers on an arbitrary persisted sequence *)

Section Readers.

Import Adios.

Context {elem : Type}.





End Readers.





(** ** Writers *)

Section Writers.

Import Adios.

Context `{FloatBuffer elem}.

Lemma to_size_t_write_count nSteps :
  is_int nSteps -> to_size_t nSteps = write_count nSteps.
Proof.
  intros Hn. rewrite (to_size_t_int nSteps Hn). unfold write_count.
  destruct (nSteps <? 0); lia.
Qed.

Lemma write_count_nonneg nSteps : is_int nSteps -> 0 <= write_count nSteps.
Proof.
  unfold is_int, write_count. intros Hn.
  assert (int_half < size_t_mod) by reflexivity.
  destruct (Z.ltb_spec nSteps 0); lia.
Qed.

Lemma written_lookup (op : list elem -> list elem) count buf s :
  (s < count)%nat ->
  written op count buf !! s = Some (op (Nat.iter s (fmap plus10) buf)).
Proof.
  revert buf s. induction count as [|count IH]; intros buf s Hs; [lia|].
  destruct s as [|s]; [done|].
  simpl written. rewrite lookup_cons. rewrite IH by lia.
  by rewrite Nat.iter_succ_r.
Qed.

Lemma iter_plus10_lookup s (buf : list elem) i :
  Nat.iter s (fmap plus10) buf !! i = Nat.iter s plus10 <$> buf !! i.
Proof.
  induction s as [|s IH]; simpl.
  - by destruct (buf !! i).
  - rewrite list_lookup_fmap, IH. by destruct (buf !! i).
Qed.

Lemma iter_plus10_length s (buf : list elem) :
  length (Nat.iter s (fmap plus10) buf) = length buf.
Proof. induction s as [|s IH]; simpl; [done|]. by rewrite length_fmap. Qed.

Lemma init_buffer_lookup N i :
  0 <= i < N -> init_buffer N !! Z.to_nat i = Some (of_index i).
Proof.
  intros Hi. unfold init_buffer.
  rewrite list_lookup_fmap, lookup_seqZ_lt by lia. simpl. f_equal. f_equal. lia.
Qed.

Lemma init_buffer_length N : 0 <= N -> Z.of_nat (length (init_buffer N)) = N.
Proof.
  intros HN. unfold init_buffer. rewrite length_fmap, length_seqZ. lia.
Qed.

(** The HIP step loop completes exactly when every synchronisation it
    performs succeeds. *)
Lemma hip_write_steps_some hip count c (w : Engine elem) buf :
  is_Some (HipWR.write_steps_hip hip count c w buf) <->
  (forall i, (i < count)%nat -> hipDeviceSynchronize_ok hip (c + i) = true).
Proof.
  revert c w buf. induction count as [|count IH]; intros c w buf; simpl.
  - split; [intros _ i Hi; lia | eauto].
  - destruct (hipDeviceSynchronize_ok hip c) eqn:E.
    + rewrite IH. split.
      * intros Hall [|i] Hi; [by rewrite Nat.add_0_r|].
        replace (c + S i)%nat with (S c + i)%nat by lia. apply Hall. lia.
      * intros Hall i Hi.
        replace (S c + i)%nat with (c + S i)%nat by lia. apply Hall. lia.
    + split; [intros [? ?]; discriminate|].
      intros Hall. specialize (Hall 0%nat ltac:(lia)).
      rewrite Nat.add_0_r in Hall. congruence.
Qed.

Lemma hip_write_steps_cpu_spec count (w : Engine elem) buf :
  eng_mode elem w = Write ->
  let w' := HipDriver.write_steps_cpu count w buf in
  eng_mode elem w' = Write /\ eng_name elem w' = eng_name elem w /\
  eng_steps elem w' = eng_steps elem w ++ replicate count buf.
Proof.
  revert w. induction count as [|count IH]; intros w Hm; simpl.
  - by rewrite app_nil_r.
  - unfold BeginStep, EndStep, Put. rewrite Hm. simpl.
    match goal with
    | |- context [HipDriver.write_steps_cpu count ?w1 buf] =>
        destruct (IH w1 eq_refl) as (Em & En & Es)
    end.
    rewrite Em, En, Es. simpl. by rewrite <- app_assoc.
Qed.

End Writers.

(** X11: [BPWrite] returns 0 for every [int] step count and replaces the
    sequence under its file name, leaving every other file as it was.
    Because the loop compares a [size_t] counter with the [int] [nSteps],
    a negative [nSteps] does not give an empty sequence: the writer
    persists 2^64 + nSteps steps. *)
Theorem bpwrite_step_count `{FloatBuffer elem} (fs : Adios.Files elem)
        (fname : string) (N nSteps : Z) :
  is_int nSteps ->
  exists steps,
    KokkosWR.BPWrite fs fname N nSteps = Returned (0, <[fname := steps]> fs) /\
    Z.of_nat (length steps) =
      (if nSteps <? 0 then size_t_mod + nSteps else nSteps).
Proof.
  intros Hn. unfold KokkosWR.BPWrite. simpl.
  rewrite (to_size_t_write_count nSteps Hn).
  set (w0 := Adios.mkEngine elem fname Adios.Write [] 0 None).
  destruct (kokkos_write_steps_spec (Z.to_nat (write_count nSteps)) w0
              (init_buffer N) eq_refl) as (Em & En & Es).
  eexists. split.
  - unfold Adios.Close. rewrite Em, En, Es. reflexivity.
  - simpl. rewrite written_length.
    pose proof (write_count_nonneg nSteps Hn). unfold write_count in *. lia.
Qed.

Lemma bpwrite_step_count_witness :
  exists steps,
    KokkosWR.BPWrite (H := Z_buffer) ∅ "w.bp" 3 (-1)
      = Returned (0, <["w.bp" := steps]> ∅) /\
    Z.of_nat (length steps) =
      (if -1 <? 0 then size_t_mod + -1 else -1).
Proof.
  apply (bpwrite_step_count (H := Z_buffer) ∅ "w.bp" 3 (-1)).
  unfold is_int. vm_compute. repeat split; discriminate.
Defined.

(** X12: when every HIP call succeeds and N is a non-negative [int]
    (so that [dim3(N)] launches one block per entry), the sequence
    [BPWrite] persists has in step s, at entry i of its N entries, the
    value i after s updates [+= 10]. *)
Theorem hip_bpwrite_content `{FloatBuffer elem} (hip : HipRuntime)
        (fs : Adios.Files elem) (fname : string) (N nSteps : Z) :
  hip_succeeds hip -> is_int nSteps -> 0 <= N < int_half ->
  exists steps,
    HipWR.BPWrite hip fs fname N nSteps
      = Returned (0, <[fname := steps]> fs) /\
    forall (s : nat) (l : list elem),
      steps !! s = Some l ->
      Z.of_nat (length l) = N /\
      forall i, 0 <= i < N ->
                l !! Z.to_nat i = Some (Nat.iter s plus10 (of_index i)).
Proof.
  intros (Hmalloc & Hsync & _) Hn [HN _].
  unfold HipWR.BPWrite. rewrite Hmalloc, Hsync. simpl.
  set (w0 := Adios.mkEngine elem fname Adios.Write [] 0 None).
  destruct (hip_write_steps_spec hip (Z.to_nat (to_size_t nSteps)) 1 w0
              (init_buffer N) Hsync eq_refl) as (w & E & Em & En & Es).
  rewrite E. eexists. split.
  - unfold Adios.Close. rewrite Em, En, Es. reflexivity.
  - simpl. intros s l Hl.
    assert (Hs : (s < Z.to_nat (to_size_t nSteps))%nat).
    { apply lookup_lt_Some in Hl. by rewrite written_length in Hl. }
    rewrite written_lookup in Hl by done. inversion Hl; subst l. split.
    + unfold id. rewrite iter_plus10_length. by apply init_buffer_length.
    + intros i Hi. unfold id.
      rewrite iter_plus10_lookup, init_buffer_lookup by done. done.
Qed.

Lemma hip_bpwrite_content_witness :
  exists steps,
    HipWR.BPWrite (H := Z_buffer) hip_all_ok ∅ "w.bp" 3 2
      = Returned (0, <["w.bp" := steps]> ∅) /\
    forall (s : nat) (l : list Z),
      steps !! s = Some l ->
      Z.of_nat (length l) = 3 /\
      forall i, 0 <= i < 3 ->
                l !! Z.to_nat i
                = Some (Nat.iter s (plus10 (FloatBuffer := Z_buffer))
                                 (of_index (FloatBuffer := Z_buffer) i)).
Proof.
  apply (hip_bpwrite_content (H := Z_buffer) hip_all_ok ∅ "w.bp" 3 2).
  - unfold hip_succeeds. simpl. auto.
  - unfold is_int. vm_compute. repeat split; discriminate.
  - vm_compute. repeat split; discriminate.
Defined.

(** X13: the HIP [BPWrite] returns 0 or 1, and 0 exactly when the
    allocation and every device synchronisation it waits for succeed: the
    one after the initialisation and one after each step. *)
Theorem hip_bpwrite_return `{FloatBuffer elem} (hip : HipRuntime)
        (fs : Adios.Files elem) (fname : string) (N nSteps : Z) :
  exists r fs',
    HipWR.BPWrite hip fs fname N nSteps = Returned (r, fs') /\
    (r = 0 \/ r = 1) /\
    (r = 0 <->
     hipMalloc_ok hip = true /\
     forall i, (i <= Z.to_nat (to_size_t nSteps))%nat ->
               hipDeviceSynchronize_ok hip i = true).
Proof.
  unfold HipWR.BPWrite.
  destruct (hipMalloc_ok hip) eqn:Em; simpl.
  2:{ exists 1, fs. split; [done|]. split; [by right|].
      split; [discriminate | intros [? _]; discriminate]. }
  destruct (hipDeviceSynchronize_ok hip 0) eqn:E0; simpl.
  2:{ exists 1, fs. split; [done|]. split; [by right|].
      split; [discriminate|]. intros [_ Hall].
      specialize (Hall 0%nat ltac:(lia)). congruence. }
  set (w0 := Adios.mkEngine elem fname Adios.Write [] 0 None).
  pose proof (hip_write_steps_some hip (Z.to_nat (to_size_t nSteps)) 1 w0
                (init_buffer N)) as Hsome.
  destruct (HipWR.write_steps_hip hip _ 1 w0 (init_buffer N)) as [w|].
  - eexists 0, _. split; [done|]. split; [by left|].
    split; [|done]. intros _. split; [done|].
    intros [|i] Hi; [done|].
    destruct Hsome as [Hsome _]. apply (Hsome ltac:(eauto) i). lia.
  - exists 1, fs. split; [done|]. split; [by right|].
    split; [discriminate|]. intros [_ Hall].
    destruct Hsome as [_ Hsome].
    destruct Hsome as [? ?]; [|discriminate].
    intros i Hi. apply Hall. lia.
Qed.

(** X14: the HIP [BPWriteCPU] never updates its host buffer: it persists
    the step count's worth of identical steps, each N zeros. *)
Theorem hip_bpwritecpu_zeros `{FloatBuffer elem} (fs : Adios.Files elem)
        (fname : string) (N nSteps : Z) :
  is_int nSteps ->
  HipDriver.BPWriteCPU fs fname N nSteps =
  Returned (0, <[fname :=
                   replicate (Z.to_nat (if nSteps <? 0
                                        then size_t_mod + nSteps
                                        else nSteps))
                             (replicate (Z.to_nat N) (of_index 0))]> fs).
Proof.
  intros Hn. unfold HipDriver.BPWriteCPU. simpl.
  rewrite (to_size_t_write_count nSteps Hn).
  set (w0 := Adios.mkEngine elem fname Adios.Write [] 0 None).
  destruct (hip_write_steps_cpu_spec (Z.to_nat (write_count nSteps)) w0
              (replicate (Z.to_nat N) (of_index 0)) eq_refl)
    as (Em & En & Es).
  unfold Adios.Close. rewrite Em, En, Es. reflexivity.
Qed.

Lemma hip_bpwritecpu_zeros_witness :
  HipDriver.BPWriteCPU (H := Z_buffer) ∅ "c.bp" 2 3 =
  Returned (0, <["c.bp" := [[0; 0]; [0; 0]; [0; 0]]]> ∅).
Proof.
  apply (hip_bpwritecpu_zeros (H := Z_buffer) ∅ "c.bp" 2 3).
  unfold is_int. vm_compute. repeat split; discriminate.
Defined.

(** ** What the drivers print and what [main] does *)

(** X15: the statement that prints a step reads entries 0, 1 and
    size - 1 without a check: it is in bounds exactly for buffers of at
    least two entries (N = 0 or N = 1 reads outside the buffer), and then
    it shows the size, the first two entries and the last one. *)
Theorem print_step_bounds {elem : Type} (step : Z) (cpuData : list elem) :
  Z.of_nat (length cpuData) < size_t_mod ->
  ((length cpuData < 2)%nat -> print_step step cpuData = None) /\
  ((2 <= length cpuData)%nat ->
   exists a b c,
     cpuData !! 0%nat = Some a /\ cpuData !! 1%nat = Some b /\
     last cpuData = Some c /\
     print_step step cpuData
     = Some (step, Z.of_nat (length cpuData), a, b, c)).
Proof.
  intros Hlen. unfold print_step. split.
  - intros Hs. destruct cpuData as [|a [|b l]]; simpl in *; (done || lia).
  - intros Hs.
    destruct (lookup_lt_is_Some_2 cpuData 0 ltac:(lia)) as [a Ha].
    destruct (lookup_lt_is_Some_2 cpuData 1 ltac:(lia)) as [b Hb].
    assert (Hi : Z.to_nat (sub64 (Z.of_nat (length cpuData)) 1)
                 = pred (length cpuData)).
    { unfold sub64. rewrite to_size_t_small by (unfold is_size_t; lia). lia. }
    rewrite Hi, <- last_lookup.
    destruct (last cpuData) as [c|] eqn:Hc.
    + exists a, b, c. rewrite Ha, Hb. simpl. done.
    + apply last_None in Hc. subst. simpl in Hs. lia.
Qed.

Lemma print_step_bounds_witness :
  ((length [5] < 2)%nat -> print_step 0 [5] = None) /\
  ((2 <= length [5])%nat ->
   exists a b c,
     [5] !! 0%nat = Some a /\ [5] !! 1%nat = Some b /\
     last [5] = Some c /\
     print_step 0 [5] = Some (0, Z.of_nat (length [5]), a, b, c)).
Proof.
  apply (print_step_bounds 0 [5]). vm_compute. reflexivity.
Defined.

Lemma main_N_range argv1 : is_size_t (main_N argv1).
Proof.
  destruct argv1 as [n|]; simpl.
  - apply to_size_t_range.
  - unfold is_size_t. vm_compute. split; [discriminate | reflexivity].
Qed.





(** The first and the last line the HIP [main] prints for N = 3. *)
Example hip_main_lines :
  match HipDriver.main (H := Z_buffer) true hip_all_ok 11 ∅ (Some 3) with
  | Returned (r, _, Some run) =>
      Some (r, (fun l => print_step l.1 l.2) <$> run_printed run !! 0%nat,
            (fun l => print_step l.1 l.2) <$> run_printed run !! 9%nat)
  | _ => None
  end
  = Some (0, Some (Some (0, 3, 0, 1, 2)), Some (Some (9, 3, 90, 91, 92))).
Proof. vm_compute. reflexivity. Qed.

(** X17: for a command line whose count is a non-negative [int] (or
    absent, N = 6000), [main] of the Kokkos driver returns 0 and leaves two
    sequences of 10 steps each, the device writer's under
    "BP5_Kokkos_WR.bp" and the host writer's under "BP5_CPU_WR.bp" (the
    second write does not replace the first).  Step s of either sequence
    is the MGARD-processed buffer of N entries that holds, at entry i, the
    value i after s updates [+= 10]: the host writer repeats the device
    writer's data.  Every other file is as it was. *)
Theorem kokkos_main_writes_two `{FloatBuffer elem} (fs : Adios.Files elem)
        (argv1 : option Z) :
  nonneg_count argv1 ->
  exists dev host fs',
    KokkosDriver.main fs argv1 = Returned (0, fs') /\
    fs' !! "BP5_Kokkos_WR.bp" = Some dev /\
    fs' !! "BP5_CPU_WR.bp" = Some host /\
    length dev = 10%nat /\ length host = 10%nat /\
    (forall s, (s < 10)%nat ->
       exists buf,
         dev !! s = Some (mgard buf) /\ host !! s = Some (mgard buf) /\
         Z.of_nat (length buf) = main_N argv1 /\
         forall i, 0 <= i < main_N argv1 ->
                   buf !! Z.to_nat i = Some (Nat.iter s plus10 (of_index i)))
    /\
    forall name, name <> "BP5_Kokkos_WR.bp" -> name <> "BP5_CPU_WR.bp" ->
                 fs' !! name = fs !! name.
Proof.
  intros Hargv.
  assert (HN : 0 <= main_N argv1).
  { pose proof (main_N_range argv1) as HN. unfold is_size_t in HN. lia. }
  unfold KokkosDriver.main, KokkosWR.BPWrite, KokkosDriver.BPWriteCPU.
  cbn [Adios.Open].
  change ("BP5" +:+ "_Kokkos_WR.bp") with "BP5_Kokkos_WR.bp".
  change ("BP5" +:+ "_CPU_WR.bp") with "BP5_CPU_WR.bp".
  change (Z.to_nat (to_size_t 10)) with 10%nat.
  set (N := main_N argv1).
  set (w1 := Adios.mkEngine elem "BP5_Kokkos_WR.bp" Adios.Write [] 0 None).
  set (w2 := Adios.mkEngine elem "BP5_CPU_WR.bp" Adios.Write [] 0 None).
  destruct (kokkos_write_steps_spec 10 w1 (init_buffer N) eq_refl)
    as (Em1 & En1 & Es1).
  destruct (kokkos_write_steps_spec 10 w2 (init_buffer N) eq_refl)
    as (Em2 & En2 & Es2).
  unfold Adios.Close. rewrite Em1, En1, Es1, Em2, En2, Es2.
  cbn [Adios.eng_name Adios.eng_steps w1 w2 app].
  exists (written mgard 10 (init_buffer N)),
         (written mgard 10 (init_buffer N)).
  eexists. split; [reflexivity|].
  rewrite !written_length.
  split; [|split; [|split; [done|split; [done|split]]]].
  - rewrite lookup_insert_ne by discriminate. apply lookup_insert_eq.
  - apply lookup_insert_eq.
  - intros s Hs. exists (Nat.iter s (fmap plus10) (init_buffer N)).
    rewrite written_lookup by done.
    split; [done|]. split; [done|]. split.
    + rewrite iter_plus10_length. by apply init_buffer_length.
    + intros i Hi. by rewrite iter_plus10_lookup, init_buffer_lookup.
  - intros name H1 H2. by rewrite !lookup_insert_ne.
Qed.

Lemma kokkos_main_writes_two_witness :
  exists dev host fs',
    KokkosDriver.main (H := Z_buffer) ∅ (Some 3) = Returned (0, fs') /\
    fs' !! "BP5_Kokkos_WR.bp" = Some dev /\
    fs' !! "BP5_CPU_WR.bp" = Some host /\
    length dev = 10%nat /\ length host = 10%nat /\
    (forall s, (s < 10)%nat ->
       exists buf,
         dev !! s = Some (mgard (FloatBuffer := Z_buffer) buf) /\
         host !! s = Some (mgard (FloatBuffer := Z_buffer) buf) /\
         Z.of_nat (length buf) = main_N (Some 3) /\
         forall i, 0 <= i < main_N (Some 3) ->
                   buf !! Z.to_nat i
                   = Some (Nat.iter s (plus10 (FloatBuffer := Z_buffer))
                                    (of_index (FloatBuffer := Z_buffer) i)))
    /\
    forall name, name <> "BP5_Kokkos_WR.bp" -> name <> "BP5_CPU_WR.bp" ->
                 fs' !! name = (∅ : gmap string (list (list Z))) !! name.
Proof.
  apply (kokkos_main_writes_two (H := Z_buffer) ∅ (Some 3)).
  vm_compute. repeat split; discriminate.
Defined.
